(** * Edge-informed super-resolution networks (code/arch/sisr_arch.py)

    A shallow embedding of the network definitions of [sisr_arch.py]:
    the module trees built by the constructors, the initialisation pass
    [BaseNetwork.init_weights] and the forward computations of
    [ResnetBlock], [SRGenerator], [EdgeGenerator] and [EdgeSRModel].

    Conventions.
    - A tensor is a size (a list of extents, as [torch.Size]) together with
      its entries, addressed by index lists.  An entry is a finite number,
      one of the two infinities or NaN; what float32 arithmetic returns on
      finite numbers (rounding, overflow, the library's tanh and sigmoid) is
      a parameter [Arith] of which only the facts that hold of float32 are
      assumed.  Python scalars such as [gain] are finite reals.
    - A raised Python exception is the [Raise] branch of [result].
    - The layers of [torch.nn] are library code.  Their size rules are
      written out below as PyTorch documents them; the numbers they compute
      are left to a parameter of the development ([kernel]), as are the
      pseudo-random draws of parameter initialisation ([draw]). *)

From Stdlib Require Import String ZArith Arith Bool List Lia ZifyNat Reals Lra.
Import ListNotations.

Set Implicit Arguments.

(* lia decides goals with division by a literal *)
Ltac Zify.zify_post_hook ::= Z.div_mod_to_equations.

(* ================================================================== *)
(** ** Tensors and exceptions *)

(** A float32 value. *)
Inductive float : Type :=
| Finite (r : R)
| PosInf
| NegInf
| NaN.

(** Float32 arithmetic on finite numbers.  [round r] is the value nearest to
    the real [r] (an infinity on overflow); between two representable
    numbers it is finite and stays between them.  [tanh32] and [sigmoid32]
    are the numbers the library returns for a finite argument, of which
    only the range is known. *)
Record Arith : Type := mkArith {
  round : R -> float;
  round_between :
    forall a b r : R,
      round a = Finite a -> round b = Finite b -> (a <= r <= b)%R ->
      exists v, round r = Finite v /\ (a <= v <= b)%R;
  round_0 : round 0 = Finite 0;
  round_1 : round 1 = Finite 1;
  round_2 : round 2 = Finite 2;
  tanh32 : R -> R;
  tanh32_range : forall r, (-1 <= tanh32 r <= 1)%R;
  sigmoid32 : R -> R;
  sigmoid32_range : forall r, (0 <= sigmoid32 r <= 1)%R
}.

Record Tensor : Type := mkTensor {
  size : list nat;
  data : list nat -> float
}.

Inductive exn : Type :=
| RuntimeError
| ValueError
| AttributeError
| KeyError
| ZeroDivisionError
| NotImplementedError.

Inductive result (A : Type) : Type :=
| Ok (a : A)
| Raise (e : exn).

Arguments Ok {A} a.
Arguments Raise {A} e.

Definition rbind {A B} (c : result A) (k : A -> result B) : result B :=
  match c with
  | Ok a => k a
  | Raise e => Raise e
  end.

Declare Scope result_scope.
Delimit Scope result_scope with result.
Notation "x <- c ;; k" := (rbind c (fun x => k))
  (at level 61, c at next level, right associativity) : result_scope.

Definition rmap {A B} (f : A -> B) (c : result A) : result B :=
  match c with
  | Ok a => Ok (f a)
  | Raise e => Raise e
  end.

Fixpoint sizes_eqb (s1 s2 : list nat) : bool :=
  match s1, s2 with
  | [], [] => true
  | a :: s1', b :: s2' => (a =? b) && sizes_eqb s1' s2'
  | _, _ => false
  end.

(* ================================================================== *)
(** ** Tensor expressions used by the source *)

Local Open Scope result_scope.

(** [F.interpolate(input, scale_factor=k)] with the default mode
    ['nearest']: every spatial extent is multiplied by [k] and the entry at
    a destination index is the source entry at the index divided by [k].
    The mode accepts one to three spatial dimensions and rejects empty
    spatial extents. *)
Definition interpolate (input : Tensor) (scale_factor : nat) : result Tensor :=
  match size input with
  | n :: c :: sp =>
      if (1 <=? length sp) && (length sp <=? 3) then
        if forallb (fun d => 0 <? d) sp && (0 <? scale_factor) then
          Ok (mkTensor (n :: c :: map (fun d => d * scale_factor) sp)
                (fun idx =>
                   match idx with
                   | i :: j :: r =>
                       data input (i :: j :: map (fun k => k / scale_factor) r)
                   | _ => data input idx
                   end))
        else Raise RuntimeError
      else Raise NotImplementedError
  | _ => Raise NotImplementedError
  end.

(** [torch.cat((a, b), dim)]: the operands agree on every extent but the
    one at [dim], where the extents add up. *)
Definition cat (a b : Tensor) (dim : nat) : result Tensor :=
  let sa := size a in
  let sb := size b in
  if (dim <? length sa)
     && sizes_eqb (firstn dim sa) (firstn dim sb)
     && sizes_eqb (skipn (S dim) sa) (skipn (S dim) sb)
     && (length sa =? length sb)
  then
    let ca := nth dim sa 0 in
    Ok (mkTensor (firstn dim sa ++ (ca + nth dim sb 0) :: skipn (S dim) sa)
          (fun idx =>
             let c := nth dim idx 0 in
             if c <? ca then data a idx
             else data b (firstn dim idx ++ (c - ca) :: skipn (S dim) idx)))
  else Raise RuntimeError.

(** Broadcasting of two sizes, aligned at the last extent. *)
Fixpoint broadcast_rev (r1 r2 : list nat) : result (list nat) :=
  match r1, r2 with
  | [], r => Ok r
  | r, [] => Ok r
  | a :: r1', b :: r2' =>
      r <- broadcast_rev r1' r2' ;;
      if a =? b then Ok (a :: r)
      else if a =? 1 then Ok (b :: r)
      else if b =? 1 then Ok (a :: r)
      else Raise RuntimeError
  end.

Definition expand_index (s idx : list nat) : list nat :=
  rev (map (fun di => if fst di =? 1 then 0 else snd di)
         (combine (rev s) (rev idx))).

(** Entry-wise arithmetic. *)
Section Entrywise.
Variable ar : Arith.

(** [a + b]: NaN is contagious, opposite infinities give NaN, an infinity
    absorbs a finite number, two finite numbers give their rounded sum. *)
Definition fadd (a b : float) : float :=
  match a, b with
  | NaN, _ => NaN
  | _, NaN => NaN
  | PosInf, NegInf => NaN
  | NegInf, PosInf => NaN
  | PosInf, _ => PosInf
  | _, PosInf => PosInf
  | NegInf, _ => NegInf
  | _, NegInf => NegInf
  | Finite x, Finite y => round ar (x + y)
  end.

(** [a / c] for a Python number [c] (a positive zero when [c] is 0). *)
Definition fdiv_scalar (a : float) (c : R) : float :=
  match a with
  | NaN => NaN
  | PosInf => if Rlt_dec c 0 then NegInf else PosInf
  | NegInf => if Rlt_dec c 0 then PosInf else NegInf
  | Finite x =>
      if Req_dec_T c 0 then
        if Rlt_dec 0 x then PosInf else if Rlt_dec x 0 then NegInf else NaN
      else round ar (x / c)
  end.

(** [a * b]: NaN is contagious, an infinity times zero is NaN, an infinity
    times another number is an infinity of the product of the signs. *)
Definition fmul (a b : float) : float :=
  match a, b with
  | NaN, _ => NaN
  | _, NaN => NaN
  | Finite x, Finite y => round ar (x * y)
  | Finite x, PosInf | PosInf, Finite x =>
      if Rlt_dec 0 x then PosInf else if Rlt_dec x 0 then NegInf else NaN
  | Finite x, NegInf | NegInf, Finite x =>
      if Rlt_dec 0 x then NegInf else if Rlt_dec x 0 then PosInf else NaN
  | PosInf, PosInf | NegInf, NegInf => PosInf
  | PosInf, NegInf | NegInf, PosInf => NegInf
  end.

Definition ftanh (a : float) : float :=
  match a with
  | Finite x => Finite (tanh32 ar x)
  | PosInf => Finite 1
  | NegInf => Finite (-1)
  | NaN => NaN
  end.

Definition sigmoid (a : float) : float :=
  match a with
  | Finite x => Finite (sigmoid32 ar x)
  | PosInf => Finite 1
  | NegInf => Finite 0
  | NaN => NaN
  end.

(** [x + y] on tensors.  Operands of equal size are added entry by entry;
    otherwise the operands are broadcast first. *)
Definition tensor_add (x y : Tensor) : result Tensor :=
  if sizes_eqb (size x) (size y) then
    Ok (mkTensor (size x) (fun idx => fadd (data x idx) (data y idx)))
  else
    r <- broadcast_rev (rev (size x)) (rev (size y)) ;;
    Ok (mkTensor (rev r)
          (fun idx => fadd (data x (expand_index (size x) idx))
                        (data y (expand_index (size y) idx)))).

Definition tensor_map (f : float -> float) (x : Tensor) : Tensor :=
  mkTensor (size x) (fun idx => f (data x idx)).

Definition torch_tanh (x : Tensor) : Tensor := tensor_map ftanh x.

Definition torch_sigmoid (x : Tensor) : Tensor := tensor_map sigmoid x.

Definition add_scalar (x : Tensor) (c : R) : Tensor :=
  tensor_map (fun v => fadd v (round ar c)) x.

Definition div_scalar (x : Tensor) (c : R) : Tensor :=
  tensor_map (fun v => fdiv_scalar v c) x.

End Entrywise.

(** An entry in the closed interval [0, 1]. *)
Definition in_unit_interval (a : float) : Prop :=
  exists v, a = Finite v /\ (0 <= v <= 1)%R.

(* ================================================================== *)
(** ** Layers of torch.nn and their size rules *)

(** The state of an [nn.Conv2d] or [nn.ConvTranspose2d]: its configuration
    (square kernel, one group), the contents of its weight, the contents of
    its bias when it has one, and the two vectors [weight_u], [weight_v] that
    [nn.utils.spectral_norm] registers when it wraps the layer. *)
Record Conv : Type := mkConv {
  in_channels : nat;
  out_channels : nat;
  kernel_size : nat;
  stride : nat;
  padding : nat;
  dilation : nat;
  weight_data : list nat -> float;
  bias_data : option (list nat -> float);
  spectral : option (Tensor * Tensor)
}.

Inductive Layer : Type :=
| ReflectionPad2d (pad : nat)
| Conv2d (c : Conv)
| ConvTranspose2d (c : Conv)
| InstanceNorm2d (num_features : nat)
| ReLU (inplace : bool).

(** The weight and bias tensors of a convolution.  A [Conv2d] weight has
    size (out, in, k, k), a [ConvTranspose2d] weight (in, out, k, k). *)
Definition Conv2d_weight (c : Conv) : Tensor :=
  mkTensor [out_channels c; in_channels c; kernel_size c; kernel_size c]
    (weight_data c).

Definition ConvTranspose2d_weight (c : Conv) : Tensor :=
  mkTensor [in_channels c; out_channels c; kernel_size c; kernel_size c]
    (weight_data c).

Definition Conv_bias (c : Conv) : option Tensor :=
  option_map (mkTensor [out_channels c]) (bias_data c).

(** One spatial extent through a convolution:
    floor((h + 2p - d(k-1) - 1) / s) + 1, provided the padded input is at
    least as large as the dilated kernel. *)
Definition conv_extent (h k s p d : nat) : result nat :=
  if (0 <? k) && (0 <? s) && (0 <? d) then
    if d * (k - 1) + 1 <=? h + 2 * p then
      Ok ((h + 2 * p - (d * (k - 1) + 1)) / s + 1)
    else Raise RuntimeError
  else Raise RuntimeError.

(** One spatial extent through a transposed convolution without output
    padding: (h - 1) s - 2p + d(k-1) + 1. *)
Definition conv_transpose_extent (h k s p d : nat) : result nat :=
  if (0 <? k) && (0 <? s) && (0 <? d) && (0 <? h) then
    if 2 * p <? (h - 1) * s + d * (k - 1) + 1 then
      Ok ((h - 1) * s + d * (k - 1) + 1 - 2 * p)
    else Raise RuntimeError
  else Raise RuntimeError.

Definition Layer_out_size (l : Layer) (s : list nat) : result (list nat) :=
  match l, s with
  | ReflectionPad2d p, [n; c; h; w] =>
      (* the batch may be empty, the channels may not *)
      if (0 <? c) && (p <? h) && (p <? w) then Ok [n; c; h + 2 * p; w + 2 * p]
      else Raise RuntimeError
  | Conv2d cv, [n; c; h; w] =>
      if c =? in_channels cv then
        h' <- conv_extent h (kernel_size cv) (stride cv) (padding cv) (dilation cv) ;;
        w' <- conv_extent w (kernel_size cv) (stride cv) (padding cv) (dilation cv) ;;
        Ok [n; out_channels cv; h'; w']
      else Raise RuntimeError
  | ConvTranspose2d cv, [n; c; h; w] =>
      if c =? in_channels cv then
        h' <- conv_transpose_extent h (kernel_size cv) (stride cv) (padding cv) (dilation cv) ;;
        w' <- conv_transpose_extent w (kernel_size cv) (stride cv) (padding cv) (dilation cv) ;;
        Ok [n; out_channels cv; h'; w']
      else Raise RuntimeError
  | InstanceNorm2d _, [n; c; h; w] =>
      (* with track_running_stats=False the statistics are always taken from
         the input, which needs more than one spatial element *)
      if h * w =? 1 then Raise ValueError else Ok s
  | ReLU _, _ => Ok s
  | _, _ => Raise RuntimeError
  end.

(* ================================================================== *)
(** ** Module trees *)

(** The [nn.Module] objects the source instantiates. [SRGenerator] and
    [EdgeGenerator] hold their three stages in registration order;
    [ResnetBlock] holds its [conv_block]. *)
#[warnings="-register-all"]
Inductive nnModule : Type :=
| Builtin (l : Layer)
| Sequential (mods : list nnModule)
| ResnetBlock (conv_block : nnModule)
| SRGenerator (encoder middle decoder : nnModule)
| EdgeGenerator (encoder middle decoder : nnModule).

(** [m.__class__.__name__] *)
Definition class_name (m : nnModule) : string :=
  match m with
  | Builtin (ReflectionPad2d _) => "ReflectionPad2d"%string
  | Builtin (Conv2d _) => "Conv2d"%string
  | Builtin (ConvTranspose2d _) => "ConvTranspose2d"%string
  | Builtin (InstanceNorm2d _) => "InstanceNorm2d"%string
  | Builtin (ReLU _) => "ReLU"%string
  | Sequential _ => "Sequential"%string
  | ResnetBlock _ => "ResnetBlock"%string
  | SRGenerator _ _ _ => "SRGenerator"%string
  | EdgeGenerator _ _ _ => "EdgeGenerator"%string
  end.

(** [str.find]: the first position of [sub] in [s], or -1. *)
Definition find (s sub : string) : Z :=
  match String.index 0 sub s with
  | Some n => Z.of_nat n
  | None => (-1)%Z
  end.

(** A Python attribute that may be absent, present and [None], or a
    tensor. *)
Inductive attr : Type :=
| NoAttr
| AttrNone
| AttrTensor (t : Tensor).

Definition opt_attr (o : option Tensor) : attr :=
  match o with
  | Some t => AttrTensor t
  | None => AttrNone
  end.

(** [m.weight] and [m.bias].  A convolution built with [bias=False] and an
    [InstanceNorm2d] (affine=False) register the name with value [None]. *)
Definition weight_attr (m : nnModule) : attr :=
  match m with
  | Builtin (Conv2d c) => AttrTensor (Conv2d_weight c)
  | Builtin (ConvTranspose2d c) => AttrTensor (ConvTranspose2d_weight c)
  | Builtin (InstanceNorm2d _) => AttrNone
  | _ => NoAttr
  end.

Definition bias_attr (m : nnModule) : attr :=
  match m with
  | Builtin (Conv2d c) => opt_attr (Conv_bias c)
  | Builtin (ConvTranspose2d c) => opt_attr (Conv_bias c)
  | Builtin (InstanceNorm2d _) => AttrNone
  | _ => NoAttr
  end.

Definition hasattr (a : attr) : bool :=
  match a with
  | NoAttr => false
  | _ => true
  end.

Definition is_not_None (a : attr) : bool :=
  match a with
  | AttrTensor _ => true
  | _ => false
  end.

Definition set_Conv_weight (c : Conv) (t : Tensor) : Conv :=
  mkConv (in_channels c) (out_channels c) (kernel_size c) (stride c)
    (padding c) (dilation c) (data t) (bias_data c) (spectral c).

Definition set_Conv_bias (c : Conv) (t : Tensor) : Conv :=
  mkConv (in_channels c) (out_channels c) (kernel_size c) (stride c)
    (padding c) (dilation c) (weight_data c) (Some (data t)) (spectral c).

(** Writing new contents into the storage of [m.weight] or [m.bias]. *)
Definition store_weight (m : nnModule) (t : Tensor) : nnModule :=
  match m with
  | Builtin (Conv2d c) => Builtin (Conv2d (set_Conv_weight c t))
  | Builtin (ConvTranspose2d c) => Builtin (ConvTranspose2d (set_Conv_weight c t))
  | _ => m
  end.

Definition store_bias (m : nnModule) (t : Tensor) : nnModule :=
  match m with
  | Builtin (Conv2d c) => Builtin (Conv2d (set_Conv_bias c t))
  | Builtin (ConvTranspose2d c) => Builtin (ConvTranspose2d (set_Conv_bias c t))
  | _ => m
  end.

(** All modules of a tree, children before their parent, in the order in
    which [nn.Module.apply] visits them. *)
Fixpoint modules (m : nnModule) : list nnModule :=
  match m with
  | Builtin _ => [m]
  | Sequential ms => flat_map modules ms ++ [m]
  | ResnetBlock cb => modules cb ++ [m]
  | SRGenerator e mi d => modules e ++ modules mi ++ modules d ++ [m]
  | EdgeGenerator e mi d => modules e ++ modules mi ++ modules d ++ [m]
  end.

(** [nn.Sequential.forward]: [for module in self: input = module(input)],
    for any way [f] of running one module. *)
Fixpoint run_seq {A} (f : nnModule -> A -> result A) (l : list nnModule)
    (input : A) : result A :=
  match l with
  | [] => Ok input
  | c :: l' => y <- f c input ;; run_seq f l' y
  end.

(** The size of [x + y]. *)
Definition add_size (s1 s2 : list nat) : result (list nat) :=
  if sizes_eqb s1 s2 then Ok s1
  else r <- broadcast_rev (rev s1) (rev s2) ;; Ok (rev r).

(** The size of the output of a module, from the size of its input. *)
Fixpoint out_size (m : nnModule) (s : list nat) : result (list nat) :=
  match m with
  | Builtin l => Layer_out_size l s
  | Sequential ms => run_seq out_size ms s
  | ResnetBlock cb => s' <- out_size cb s ;; add_size s s'
  | SRGenerator e mi d =>
      s1 <- out_size e s ;; s2 <- out_size mi s1 ;; out_size d s2
  | EdgeGenerator e mi d =>
      s1 <- out_size e s ;; s2 <- out_size mi s1 ;; out_size d s2
  end.

(** The architecture of a module: the tree with the contents of every
    parameter and buffer blanked out. *)
Definition plain_conv (i o k s p d : nat) : Conv :=
  mkConv i o k s p d (fun _ => Finite 0) None None.

Definition Conv_arch (c : Conv) : Conv :=
  plain_conv (in_channels c) (out_channels c) (kernel_size c) (stride c)
    (padding c) (dilation c).

Definition Layer_arch (l : Layer) : Layer :=
  match l with
  | Conv2d c => Conv2d (Conv_arch c)
  | ConvTranspose2d c => ConvTranspose2d (Conv_arch c)
  | _ => l
  end.

Fixpoint arch (m : nnModule) : nnModule :=
  match m with
  | Builtin l => Builtin (Layer_arch l)
  | Sequential ms => Sequential (map arch ms)
  | ResnetBlock cb => ResnetBlock (arch cb)
  | SRGenerator e mi d => SRGenerator (arch e) (arch mi) (arch d)
  | EdgeGenerator e mi d => EdgeGenerator (arch e) (arch mi) (arch d)
  end.

(** The architectures the three constructors build. *)
Definition ResnetBlock_arch (dim dilation : nat) : nnModule :=
  ResnetBlock
    (Sequential
       [ Builtin (ReflectionPad2d dilation);
         Builtin (Conv2d (plain_conv dim dim 3 1 0 dilation));
         Builtin (InstanceNorm2d dim);
         Builtin (ReLU true);
         Builtin (ReflectionPad2d 1);
         Builtin (Conv2d (plain_conv dim dim 3 1 0 1));
         Builtin (InstanceNorm2d dim) ]).

Definition encoder_arch : nnModule :=
  Sequential
    [ Builtin (ReflectionPad2d 3);
      Builtin (Conv2d (plain_conv 4 64 7 1 0 1));
      Builtin (InstanceNorm2d 64); Builtin (ReLU true);
      Builtin (Conv2d (plain_conv 64 128 4 2 1 1));
      Builtin (InstanceNorm2d 128); Builtin (ReLU true);
      Builtin (Conv2d (plain_conv 128 256 4 2 1 1));
      Builtin (InstanceNorm2d 256); Builtin (ReLU true) ].

Definition middle_arch (n : nat) : nnModule :=
  Sequential (repeat (ResnetBlock_arch 256 2) n).

Definition decoder_arch (out : nat) : nnModule :=
  Sequential
    [ Builtin (ConvTranspose2d (plain_conv 256 128 4 2 1 1));
      Builtin (InstanceNorm2d 128); Builtin (ReLU true);
      Builtin (ConvTranspose2d (plain_conv 128 64 4 2 1 1));
      Builtin (InstanceNorm2d 64); Builtin (ReLU true);
      Builtin (ReflectionPad2d 3);
      Builtin (Conv2d (plain_conv 64 out 7 1 0 1)) ].

Definition SRGenerator_arch (n : nat) : nnModule :=
  SRGenerator encoder_arch (middle_arch n) (decoder_arch 3).

Definition EdgeGenerator_arch (n : nat) : nnModule :=
  EdgeGenerator encoder_arch (middle_arch n) (decoder_arch 1).

(** The distributions parameters are drawn from: the defaults of
    [reset_parameters], the unit normal of the spectral-norm vectors, the
    normal distribution of [tensor.normal_] and the orthogonal
    initialiser. *)
Inductive Dist : Type :=
| DefaultWeight
| DefaultBias
| UnitNormal
| Normal (mean std : R)
| Orthogonal (gain : R).

(** [_calculate_fan_in_and_fan_out]: for a size (d0, d1, ...) the receptive
    field is the product of the remaining extents. *)
Definition fan_in_and_fan_out (t : Tensor) : result (nat * nat) :=
  match size t with
  | d0 :: d1 :: rest =>
      let receptive := fold_right Nat.mul 1 rest in
      Ok (d1 * receptive, d0 * receptive)
  | _ => Raise ValueError
  end.

(** [_calculate_correct_fan] *)
Definition calculate_correct_fan (t : Tensor) (mode : string) : result nat :=
  if (mode =? "fan_in")%string then
    f <- fan_in_and_fan_out t ;; Ok (fst f)
  else if (mode =? "fan_out")%string then
    f <- fan_in_and_fan_out t ;; Ok (snd f)
  else Raise ValueError.

(** [tensor.numel()] *)
Definition numel (t : Tensor) : nat := fold_right Nat.mul 1 (size t).

(* ================================================================== *)
(** ** Two small engines and sample inputs for the examples *)

(** An engine whose draws and layers produce zeros everywhere. *)
Definition zero_draw (d : Dist) (s : list nat) (g : unit)
    : (list nat -> float) * unit :=
  (fun _ => Finite 0, g).

Definition zero_kernel (l : Layer) (x : Tensor) (idx : list nat) : float :=
  Finite 0.

Definition full (s : list nat) (v : R) : Tensor :=
  mkTensor s (fun _ => Finite v).

(** A 16 x 16 image with its edge map, a 8 x 8 generator input and a
    3 x 3 feature map with two channels. *)
Definition sample_lr : Tensor := full [1; 3; 16; 16] (1 / 2).
Definition sample_lr_edges : Tensor := full [1; 1; 16; 16] 1.
Definition sample_input : Tensor := full [1; 4; 8; 8] (1 / 2).
Definition sample_features : Tensor := full [1; 2; 3; 3] 1.

(** The first index of a four-dimensional tensor. *)
Definition origin : list nat := [0; 0; 0; 0].

(** A two-layer tree with one biased convolution. *)
Definition sample_tree : nnModule :=
  Sequential
    [ Builtin (Conv2d (mkConv 1 1 3 1 0 1 (fun _ => Finite 1)
                         (Some (fun _ => Finite 1)) None));
      Builtin (ReLU true) ].

(** An edge map of another height and width, a one-channel image, a
    3 x 3 image with its edge map and a generator input whose sides are not
    multiples of 4. *)
Definition sample_small_edges : Tensor := full [1; 1; 8; 8] 1.
Definition sample_gray : Tensor := full [1; 1; 16; 16] (1 / 2).
Definition sample_lr_3 : Tensor := full [1; 3; 3; 3] (1 / 2).
Definition sample_lr_edges_3 : Tensor := full [1; 1; 3; 3] 1.
Definition sample_input_13 : Tensor := full [1; 4; 13; 14] (1 / 2).

(** 2^127, a float32 number; every float32 number is below twice as much. *)
Definition huge : R := 2 ^ 127.

(** An arithmetic with the range of float32 and no rounding inside it: a
    result of magnitude 2^128 or more is an infinity. *)
Definition overflow (r : R) : float :=
  if Rle_dec (2 * huge) r then PosInf
  else if Rle_dec r (- (2 * huge)) then NegInf
  else Finite r.

Definition range_arith : Arith.
Proof.
  assert (Hh : (1 < huge)%R) by (apply Rlt_pow_R1; [lra | lia]).
  assert (Hfin : forall r, (- (2 * huge) < r < 2 * huge)%R -> overflow r = Finite r).
  { intros r Hr. unfold overflow.
    destruct (Rle_dec (2 * huge) r); [lra|].
    destruct (Rle_dec r (- (2 * huge))); [lra | reflexivity]. }
  assert (Hinv : forall r, overflow r = Finite r -> (- (2 * huge) < r < 2 * huge)%R).
  { intros r. unfold overflow.
    destruct (Rle_dec (2 * huge) r); [discriminate|].
    destruct (Rle_dec r (- (2 * huge))); [discriminate | lra]. }
  refine (@mkArith overflow _ _ _ _ tanh _ (fun r => 1 / (1 + exp (- r)))%R _).
  - intros a b r Ha Hb Hr. exists r. split; [|exact Hr].
    apply Hinv in Ha, Hb. apply Hfin. lra.
  - apply Hfin. lra.
  - apply Hfin. lra.
  - apply Hfin. lra.
  - intros r. unfold tanh, sinh, cosh.
    pose proof (exp_pos r) as Ha. pose proof (exp_pos (- r)) as Hb.
    set (a := exp r) in *. set (b := exp (- r)) in *.
    replace ((a - b) / 2 / ((a + b) / 2))%R with ((a - b) / (a + b))%R
      by (field; lra).
    split; apply Rmult_le_reg_r with (a + b)%R; try lra;
      unfold Rdiv; rewrite Rmult_assoc, Rinv_l by lra; lra.
  - intros r. pose proof (exp_pos (- r)) as Hp. split.
    + left. apply Rdiv_lt_0_compat; lra.
    + apply Rmult_le_reg_r with (1 + exp (- r))%R; [lra|].
      unfold Rdiv. rewrite Rmult_assoc, Rinv_l by lra. lra.
Defined.

(** An engine for tensors whose entries are all equal.  Every draw gives a
    tensor full of 0.02.  A layer returns, at every index, what it computes
    from the entry of its input at the origin: padding and ReLU copy the
    entry (ReLU a positive one), a convolution adds its bias to
    [in_channels * k * k] times the product of the entry and the weight,
    and instance normalisation subtracts the mean, which leaves 0 of a
    number and NaN of an infinity.  NaN goes through every layer. *)
Definition uniform_draw (d : Dist) (s : list nat) (g : unit)
    : (list nat -> float) * unit :=
  (fun _ => Finite (2 / 100), g).

Definition uniform_conv (c : Conv) (v : float) : float :=
  fadd range_arith
    (fmul range_arith
       (Finite (INR (in_channels c * kernel_size c * kernel_size c)))
       (fmul range_arith v (weight_data c origin)))
    (match bias_data c with Some b => b origin | None => Finite 0 end).

Definition uniform_kernel (l : Layer) (x : Tensor) (idx : list nat) : float :=
  let v := data x origin in
  match l with
  | ReflectionPad2d _ => v
  | Conv2d c => uniform_conv c v
  | ConvTranspose2d c => uniform_conv c v
  | InstanceNorm2d _ =>
      match v with
      | Finite _ => Finite 0
      | _ => NaN
      end
  | ReLU _ =>
      match v with
      | Finite r => Finite (Rmax r 0)
      | NegInf => Finite 0
      | _ => v
      end
  end.

(** A 16 x 16 generator input full of 2^127. *)
Definition sample_huge : Tensor := full [1; 4; 16; 16] huge.

(* ================================================================== *)
(** ** The networks, over an arbitrary tensor engine *)

Section Engine.

(** The state of the pseudo-random generator and one draw of the contents
    of a tensor of a given size. *)
Variable rng : Type.
Variable draw : Dist -> list nat -> rng -> (list nat -> float) * rng.

(** The entries a torch.nn layer computes from its state and its input. *)
Variable kernel : Layer -> Tensor -> list nat -> float.

(** Float32 arithmetic of the entry-wise expressions. *)
Variable ar : Arith.

(** *** Construction and initialisation: state and exceptions *)

Definition M (A : Type) : Type := rng -> result (A * rng).

Definition ret {A} (a : A) : M A := fun g => Ok (a, g).

Definition raise {A} (e : exn) : M A := fun _ => Raise e.

Definition bind {A B} (c : M A) (k : A -> M B) : M B :=
  fun g =>
    match c g with
    | Ok (a, g') => k a g'
    | Raise e => Raise e
    end.

Declare Scope M_scope.
Delimit Scope M_scope with M.
Notation "x <- c ;; k" := (bind c (fun x => k))
  (at level 61, c at next level, right associativity) : M_scope.

Local Open Scope M_scope.

Definition draw_data (d : Dist) (s : list nat) : M (list nat -> float) :=
  fun g => Ok (draw d s g).

(** [nn.Conv2d(in, out, k, stride, padding, dilation, bias)] and
    [nn.ConvTranspose2d(...)]: the parameters are allocated and filled by
    [reset_parameters]. *)
Definition new_Conv (i o k s p d : nat) (bias : bool) : M Conv :=
  w <- draw_data DefaultWeight [o; i; k; k] ;;
  b <- (if bias
        then (b <- draw_data DefaultBias [o] ;; ret (Some b))
        else ret None) ;;
  ret (mkConv i o k s p d w b None).

Definition new_Conv2d (i o k s p d : nat) (bias : bool) : M Layer :=
  c <- new_Conv i o k s p d bias ;; ret (Conv2d c).

Definition new_ConvTranspose2d (i o k s p d : nat) (bias : bool) : M Layer :=
  c <- new_Conv i o k s p d bias ;; ret (ConvTranspose2d c).

(** [nn.utils.spectral_norm(module)]: registers the vectors [weight_u]
    (one entry per output channel) and [weight_v] on a layer that has a
    weight parameter.  The weight is first reshaped to a matrix of
    [out_channels] rows and as many columns as it takes ([-1]), which the
    library rejects when there is no row. *)
Definition with_spectral (c : Conv) : M Conv :=
  if out_channels c =? 0 then raise RuntimeError else
  u <- draw_data UnitNormal [out_channels c] ;;
  v <- draw_data UnitNormal [in_channels c * kernel_size c * kernel_size c] ;;
  ret (mkConv (in_channels c) (out_channels c) (kernel_size c) (stride c)
         (padding c) (dilation c) (weight_data c) (bias_data c)
         (Some (mkTensor [out_channels c] u,
                mkTensor [in_channels c * kernel_size c * kernel_size c] v))).

Definition nn_utils_spectral_norm (module : Layer) : M Layer :=
  match module with
  | Conv2d c => c' <- with_spectral c ;; ret (Conv2d c')
  | ConvTranspose2d c => c' <- with_spectral c ;; ret (ConvTranspose2d c')
  | _ => raise KeyError
  end.

Definition spectral_norm (module : Layer) (mode : bool) : M Layer :=
  if mode then nn_utils_spectral_norm module else ret module.

Definition lift {A} (c : result A) : M A :=
  fun g => match c with Ok a => Ok (a, g) | Raise e => Raise e end.

(** In-place initialisers of [torch.nn.init]: the size of the tensor stays,
    its contents are replaced.  [tensor.normal_(mean, std)] rejects a
    negative standard deviation. *)
Definition normal_ (t : Tensor) (mean std : R) : M Tensor :=
  if Rlt_dec std 0 then raise RuntimeError
  else d <- draw_data (Normal mean std) (size t) ;; ret (mkTensor (size t) d).

(** std = gain * sqrt(2 / (fan_in + fan_out)), then [normal_(0, std)]. *)
Definition xavier_normal_ (t : Tensor) (gain : R) : M Tensor :=
  f <- lift (fan_in_and_fan_out t) ;;
  if fst f + snd f =? 0 then raise ZeroDivisionError
  else normal_ t 0 (gain * sqrt (2 / INR (fst f + snd f))).

(** A tensor without elements is left alone; otherwise
    std = sqrt(2 / (1 + a^2)) / sqrt(fan), then [normal_(0, std)]. *)
Definition kaiming_normal_ (t : Tensor) (a : R) (mode : string) : M Tensor :=
  if existsb (Nat.eqb 0) (size t) then ret t
  else
    fan <- lift (calculate_correct_fan t mode) ;;
    normal_ t 0 (sqrt (2 / (1 + a * a)) / sqrt (INR fan)).

(** Fewer than two dimensions are rejected; a tensor without elements is
    left alone. *)
Definition orthogonal_ (t : Tensor) (gain : R) : M Tensor :=
  if length (size t) <? 2 then raise ValueError
  else if numel t =? 0 then ret t
  else d <- draw_data (Orthogonal gain) (size t) ;; ret (mkTensor (size t) d).

Definition constant_ (t : Tensor) (val : float) : M Tensor :=
  ret (mkTensor (size t) (fun _ => val)).

(** [f(m.weight.data)] and [f(m.bias.data)] for an in-place [f]. *)
Definition on_weight_data (f : Tensor -> M Tensor) (m : nnModule) : M nnModule :=
  match weight_attr m with
  | AttrTensor w => w' <- f w ;; ret (store_weight m w')
  | _ => raise AttributeError
  end.

Definition on_bias_data (f : Tensor -> M Tensor) (m : nnModule) : M nnModule :=
  match bias_attr m with
  | AttrTensor b => b' <- f b ;; ret (store_bias m b')
  | _ => raise AttributeError
  end.

(** One effectful call per element, left to right. *)
Fixpoint mapM {A B} (f : A -> M B) (l : list A) : M (list B) :=
  match l with
  | [] => ret []
  | a :: l' => b <- f a ;; bs <- mapM f l' ;; ret (b :: bs)
  end.

(** [nn.Module.apply]: children first, then the module itself. *)
Fixpoint apply (fn : nnModule -> M nnModule) (m : nnModule) : M nnModule :=
  match m with
  | Builtin _ => fn m
  | Sequential ms =>
      ms' <- mapM (apply fn) ms ;; fn (Sequential ms')
  | ResnetBlock cb =>
      cb' <- apply fn cb ;; fn (ResnetBlock cb')
  | SRGenerator e mi d =>
      e' <- apply fn e ;; mi' <- apply fn mi ;; d' <- apply fn d ;;
      fn (SRGenerator e' mi' d')
  | EdgeGenerator e mi d =>
      e' <- apply fn e ;; mi' <- apply fn mi ;; d' <- apply fn d ;;
      fn (EdgeGenerator e' mi' d')
  end.

(** [BaseNetwork.init_weights] *)
Definition init_func (init_type : string) (gain : R) (m : nnModule) : M nnModule :=
  let classname := class_name m in
  if hasattr (weight_attr m)
     && (negb (find classname "Conv" =? -1)%Z
         || negb (find classname "Linear" =? -1)%Z)
  then
    m1 <- (if (init_type =? "normal")%string then
             on_weight_data (fun w => normal_ w 0 gain) m
           else if (init_type =? "xavier")%string then
             on_weight_data (fun w => xavier_normal_ w gain) m
           else if (init_type =? "kaiming")%string then
             on_weight_data (fun w => kaiming_normal_ w 0 "fan_in") m
           else if (init_type =? "orthogonal")%string then
             on_weight_data (fun w => orthogonal_ w gain) m
           else ret m) ;;
    if hasattr (bias_attr m1) && is_not_None (bias_attr m1) then
      on_bias_data (fun b => constant_ b (Finite 0)) m1
    else ret m1
  else if negb (find classname "BatchNorm2d" =? -1)%Z then
    m1 <- on_weight_data (fun w => normal_ w 1 gain) m ;;
    on_bias_data (fun b => constant_ b (Finite 0)) m1
  else ret m.

Definition init_weights (self : nnModule) (init_type : string) (gain : R) : M nnModule :=
  apply (init_func init_type gain) self.

(** The defaults [init_type="normal"], [gain=0.02]. *)
Definition init_weights_default (self : nnModule) : M nnModule :=
  init_weights self "normal" (2 / 100).

(** [ResnetBlock.__init__(dim, dilation, use_spectral_norm)] *)
Definition ResnetBlock_init (dim dilation : nat) (use_spectral_norm : bool) : M nnModule :=
  c1 <- (l <- new_Conv2d dim dim 3 1 0 dilation (negb use_spectral_norm) ;;
         spectral_norm l use_spectral_norm) ;;
  c2 <- (l <- new_Conv2d dim dim 3 1 0 1 (negb use_spectral_norm) ;;
         spectral_norm l use_spectral_norm) ;;
  ret (ResnetBlock
         (Sequential
            [ Builtin (ReflectionPad2d dilation);
              Builtin c1;
              Builtin (InstanceNorm2d dim);
              Builtin (ReLU true);
              Builtin (ReflectionPad2d 1);
              Builtin c2;
              Builtin (InstanceNorm2d dim) ])).

(** [for _ in range(n): blocks.append(mk())] *)
Fixpoint build_blocks (n : nat) (mk : M nnModule) : M (list nnModule) :=
  match n with
  | O => ret []
  | S n' => b <- mk ;; bs <- build_blocks n' mk ;; ret (b :: bs)
  end.

(** [SRGenerator.__init__(scale, residual_blocks, init_weights)] *)
Definition SRGenerator_init (scale residual_blocks : Z) (init_weights : bool) : M nnModule :=
  e1 <- new_Conv2d 4 64 7 1 0 1 true ;;
  e2 <- new_Conv2d 64 128 4 2 1 1 true ;;
  e3 <- new_Conv2d 128 256 4 2 1 1 true ;;
  blocks <- build_blocks (Z.to_nat residual_blocks) (ResnetBlock_init 256 2 false) ;;
  d1 <- new_ConvTranspose2d 256 128 4 2 1 1 true ;;
  d2 <- new_ConvTranspose2d 128 64 4 2 1 1 true ;;
  d3 <- new_Conv2d 64 3 7 1 0 1 true ;;
  let self :=
    SRGenerator
      (Sequential
         [ Builtin (ReflectionPad2d 3);
           Builtin e1; Builtin (InstanceNorm2d 64); Builtin (ReLU true);
           Builtin e2; Builtin (InstanceNorm2d 128); Builtin (ReLU true);
           Builtin e3; Builtin (InstanceNorm2d 256); Builtin (ReLU true) ])
      (Sequential blocks)
      (Sequential
         [ Builtin d1; Builtin (InstanceNorm2d 128); Builtin (ReLU true);
           Builtin d2; Builtin (InstanceNorm2d 64); Builtin (ReLU true);
           Builtin (ReflectionPad2d 3);
           Builtin d3 ]) in
  if init_weights then init_weights_default self else ret self.

(** [EdgeGenerator.__init__(scale, residual_blocks, use_spectral_norm,
    init_weights)] *)
Definition EdgeGenerator_init (scale residual_blocks : Z)
    (use_spectral_norm init_weights : bool) : M nnModule :=
  e1 <- (l <- new_Conv2d 4 64 7 1 0 1 true ;; spectral_norm l use_spectral_norm) ;;
  e2 <- (l <- new_Conv2d 64 128 4 2 1 1 true ;; spectral_norm l use_spectral_norm) ;;
  e3 <- (l <- new_Conv2d 128 256 4 2 1 1 true ;; spectral_norm l use_spectral_norm) ;;
  blocks <- build_blocks (Z.to_nat residual_blocks)
              (ResnetBlock_init 256 2 use_spectral_norm) ;;
  d1 <- (l <- new_ConvTranspose2d 256 128 4 2 1 1 true ;;
         spectral_norm l use_spectral_norm) ;;
  d2 <- (l <- new_ConvTranspose2d 128 64 4 2 1 1 true ;;
         spectral_norm l use_spectral_norm) ;;
  d3 <- new_Conv2d 64 1 7 1 0 1 true ;;
  let self :=
    EdgeGenerator
      (Sequential
         [ Builtin (ReflectionPad2d 3);
           Builtin e1; Builtin (InstanceNorm2d 64); Builtin (ReLU true);
           Builtin e2; Builtin (InstanceNorm2d 128); Builtin (ReLU true);
           Builtin e3; Builtin (InstanceNorm2d 256); Builtin (ReLU true) ])
      (Sequential blocks)
      (Sequential
         [ Builtin d1; Builtin (InstanceNorm2d 128); Builtin (ReLU true);
           Builtin d2; Builtin (InstanceNorm2d 64); Builtin (ReLU true);
           Builtin (ReflectionPad2d 3);
           Builtin d3 ]) in
  if init_weights then init_weights_default self else ret self.

(** *** Forward computations

    A forward pass reads the module state and returns a tensor.  Two
    in-place effects of the library stay outside the embedding: [nn.ReLU(True)]
    overwrites its argument, which in every stack of the source is the tensor
    the preceding [InstanceNorm2d] has just allocated and nothing else refers
    to; and a spectral-norm wrapper in training mode refreshes [weight_u] and
    [weight_v], which only later forward passes would see. *)

Fixpoint forward (m : nnModule) (x : Tensor) : result Tensor :=
  match m with
  | Builtin l =>
      (s <- Layer_out_size l (size x) ;; Ok (mkTensor s (kernel l x)))%result
  | Sequential ms =>
      run_seq forward ms x
  | ResnetBlock cb =>
      (* out = x + self.conv_block(x) *)
      (fx <- forward cb x ;; tensor_add ar x fx)%result
  | SRGenerator e mi d =>
      (x1 <- forward e x ;;
       x2 <- forward mi x1 ;;
       x3 <- forward d x2 ;;
       Ok (div_scalar ar (add_scalar ar (torch_tanh ar x3) 1) 2))%result
  | EdgeGenerator e mi d =>
      (x1 <- forward e x ;;
       x2 <- forward mi x1 ;;
       x3 <- forward d x2 ;;
       Ok (torch_sigmoid ar x3))%result
  end.

(** [EdgeSRModel]: the two generators it owns. *)
Record EdgeSRModel : Type := mkEdgeSRModel {
  edge_generator : nnModule;
  sr_generator : nnModule
}.

(** [EdgeSRModel.__init__(use_spectral_norm)]; the generators receive their
    default arguments [scale=4], [residual_blocks=8], [init_weights=True]. *)
Definition EdgeSRModel_init (use_spectral_norm : bool) : M EdgeSRModel :=
  eg <- EdgeGenerator_init 4 8 use_spectral_norm true ;;
  sg <- SRGenerator_init 4 8 true ;;
  ret (mkEdgeSRModel eg sg).

(** [EdgeSRModel.forward(lr, lr_edges)] *)
Definition EdgeSRModel_forward (self : EdgeSRModel) (lr lr_edges : Tensor) : result Tensor :=
  (lr_scaled <- interpolate lr 4 ;;
   lr_edges_scaled <- interpolate lr_edges 4 ;;
   inputs <- cat lr_scaled lr_edges_scaled 1 ;;
   edge_gen <- forward (edge_generator self) inputs ;;
   inputs' <- cat lr_scaled edge_gen 1 ;;
   outputs <- forward (sr_generator self) inputs' ;;
   Ok outputs)%result.

(* ================================================================== *)
(** ** Vocabulary of the statements *)

(** [returns c Q]: from every generator state, [c] returns normally with a
    value that satisfies [Q]. *)
Definition returns {A} (c : M A) (Q : A -> Prop) : Prop :=
  forall g, exists a g', c g = Ok (a, g') /\ Q a.

Definition has_bias (c : Conv) : bool :=
  match bias_data c with Some _ => true | None => false end.

Definition has_spectral (c : Conv) : bool :=
  match spectral c with Some _ => true | None => false end.

Definition built_conv (i o k s p d : nat) (bias sn : bool) (c : Conv) : Prop :=
  Conv_arch c = plain_conv i o k s p d /\ has_bias c = bias /\ has_spectral c = sn.

(** The block [ResnetBlock.__init__] builds: its [conv_block] is the
    seven-layer stack of the source, around two convolutions [c1], [c2]. *)
Definition conv_block_of (dim dilation : nat) (c1 c2 : Conv) : nnModule :=
  Sequential
    [ Builtin (ReflectionPad2d dilation);
      Builtin (Conv2d c1);
      Builtin (InstanceNorm2d dim);
      Builtin (ReLU true);
      Builtin (ReflectionPad2d 1);
      Builtin (Conv2d c2);
      Builtin (InstanceNorm2d dim) ].

Definition built_block (dim dilation : nat) (sn : bool) (m : nnModule) : Prop :=
  exists c1 c2,
    m = ResnetBlock (conv_block_of dim dilation c1 c2)
    /\ built_conv dim dim 3 1 0 dilation (negb sn) sn c1
    /\ built_conv dim dim 3 1 0 1 (negb sn) sn c2.

(** The policy names that select a branch of [init_func]. *)
Definition policies : list string :=
  ["normal"; "xavier"; "kaiming"; "orthogonal"]%string.

(** A convolution before and after [init_func]: same configuration and
    spectral-norm vectors, bias contents zero where there is a bias, and
    weight contents untouched when no policy name matched. *)
Definition conv_init_rel (init_type : string) (c c' : Conv) : Prop :=
  Conv_arch c' = Conv_arch c
  /\ spectral c' = spectral c
  /\ bias_data c' = option_map (fun _ => fun _ : list nat => Finite 0) (bias_data c)
  /\ (~ In init_type policies -> weight_data c' = weight_data c).

Definition layer_init_rel (init_type : string) (l l' : Layer) : Prop :=
  match l with
  | Conv2d c => exists c', l' = Conv2d c' /\ conv_init_rel init_type c c'
  | ConvTranspose2d c =>
      exists c', l' = ConvTranspose2d c' /\ conv_init_rel init_type c c'
  | _ => l' = l
  end.

(** Two trees of the same form whose torch.nn layers are related by [R]. *)
#[warnings="-register-all"]
Inductive tree_rel (R : Layer -> Layer -> Prop) : nnModule -> nnModule -> Prop :=
| TR_Builtin l l' :
    R l l' -> tree_rel R (Builtin l) (Builtin l')
| TR_Sequential ms ms' :
    Forall2 (tree_rel R) ms ms' -> tree_rel R (Sequential ms) (Sequential ms')
| TR_ResnetBlock cb cb' :
    tree_rel R cb cb' -> tree_rel R (ResnetBlock cb) (ResnetBlock cb')
| TR_SRGenerator e mi d e' mi' d' :
    tree_rel R e e' -> tree_rel R mi mi' -> tree_rel R d d' ->
    tree_rel R (SRGenerator e mi d) (SRGenerator e' mi' d')
| TR_EdgeGenerator e mi d e' mi' d' :
    tree_rel R e e' -> tree_rel R mi mi' -> tree_rel R d d' ->
    tree_rel R (EdgeGenerator e mi d) (EdgeGenerator e' mi' d').

(** The weight step of [init_func] on a convolution. *)
Definition weight_step_rel (init_type : string) (c c1 : Conv) : Prop :=
  Conv_arch c1 = Conv_arch c /\ spectral c1 = spectral c
  /\ bias_data c1 = bias_data c
  /\ (~ In init_type policies -> weight_data c1 = weight_data c).

(** The data flow of [EdgeSRModel.forward] as a relation between the two
    inputs, the five intermediate tensors and the result: both inputs are
    upsampled by 4, concatenated along dimension 1 and given to the edge
    generator; the upsampled image and the predicted edges are concatenated
    and given to the image generator. *)
Definition forward_steps (self : EdgeSRModel)
    (lr lr_edges lr_scaled lr_edges_scaled inputs edge_gen inputs' out : Tensor) : Prop :=
  interpolate lr 4 = Ok lr_scaled
  /\ interpolate lr_edges 4 = Ok lr_edges_scaled
  /\ cat lr_scaled lr_edges_scaled 1 = Ok inputs
  /\ forward (edge_generator self) inputs = Ok edge_gen
  /\ cat lr_scaled edge_gen 1 = Ok inputs'
  /\ forward (sr_generator self) inputs' = Ok out.

(** What the tensors of the data flow look like for an image of size
    (B, 3, H, W) and an edge map of size (B, 1, H, W). *)
Definition steps_shape (B H W : nat)
    (lr lr_edges lr_scaled lr_edges_scaled inputs edge_gen inputs' out : Tensor) : Prop :=
  size lr_scaled = [B; 3; 4 * H; 4 * W]
  /\ (forall b c i j, data lr_scaled [b; c; i; j] = data lr [b; c; i / 4; j / 4])
  /\ size lr_edges_scaled = [B; 1; 4 * H; 4 * W]
  /\ (forall b c i j,
        data lr_edges_scaled [b; c; i; j] = data lr_edges [b; c; i / 4; j / 4])
  /\ size inputs = [B; 4; 4 * H; 4 * W]
  /\ (forall b c i j,
        data inputs [b; c; i; j]
        = if c <? 3 then data lr_scaled [b; c; i; j]
          else data lr_edges_scaled [b; c - 3; i; j])
  /\ size edge_gen = [B; 1; 4 * H; 4 * W]
  /\ size inputs' = [B; 4; 4 * H; 4 * W]
  /\ (forall b c i j,
        data inputs' [b; c; i; j]
        = if c <? 3 then data lr_scaled [b; c; i; j]
          else data edge_gen [b; c - 3; i; j])
  /\ size out = [B; 3; 4 * H; 4 * W].

(** The convolutions of a tree, in the order the forward pass meets them. *)
Fixpoint convs (m : nnModule) : list Conv :=
  match m with
  | Builtin (Conv2d c) => [c]
  | Builtin (ConvTranspose2d c) => [c]
  | Builtin _ => []
  | Sequential ms => flat_map convs ms
  | ResnetBlock cb => convs cb
  | SRGenerator e mi d => convs e ++ convs mi ++ convs d
  | EdgeGenerator e mi d => convs e ++ convs mi ++ convs d
  end.

(** Whether a convolution has a bias and whether it is wrapped in spectral
    normalisation. *)
Definition conv_flags (c : Conv) : bool * bool := (has_bias c, has_spectral c).

(** A convolution whose weight has elements: at least one input channel,
    one output channel and one kernel position. *)
Definition proper_conv (c : Conv) : Prop :=
  0 < in_channels c /\ 0 < out_channels c /\ 0 < kernel_size c.

(** The conditions under which the initialiser of a policy accepts the
    weight of a convolution and a gain: the gain of 'normal' and 'xavier',
    which becomes a standard deviation, is not negative, and the fans of
    'xavier' do not add up to zero.  The other policies, and a name that is
    no policy, accept every weight and every gain. *)
Definition accepted (init_type : string) (gain : R) (c : Conv) : Prop :=
  (init_type = "normal"%string -> (0 <= gain)%R)
  /\ (init_type = "xavier"%string ->
        (0 <= gain)%R /\ 0 < kernel_size c /\ 0 < in_channels c + out_channels c).

(** The distribution each policy name of [init_func] draws a weight [w]
    from. *)
Definition policy_dist (init_type : string) (gain : R) (w : Tensor) : Dist :=
  match fan_in_and_fan_out w with
  | Ok (fan_in, fan_out) =>
      if (init_type =? "normal")%string then Normal 0 gain
      else if (init_type =? "xavier")%string then
        Normal 0 (gain * sqrt (2 / INR (fan_in + fan_out)))
      else if (init_type =? "kaiming")%string then
        Normal 0 (sqrt (2 / (1 + 0 * 0)) / sqrt (INR fan_in))
      else Orthogonal gain
  | Raise _ => Orthogonal gain
  end.

(** A convolution after [init_func] under a policy: its weight is one draw
    from the distribution of the policy, of the size of the weight. *)
Definition layer_drawn_rel (init_type : string) (gain : R) (l l' : Layer) : Prop :=
  match l with
  | Conv2d c =>
      exists c' g0,
        l' = Conv2d c' /\ Conv_arch c' = Conv_arch c
        /\ weight_data c'
           = fst (draw (policy_dist init_type gain (Conv2d_weight c))
                    (size (Conv2d_weight c)) g0)
  | ConvTranspose2d c =>
      exists c' g0,
        l' = ConvTranspose2d c' /\ Conv_arch c' = Conv_arch c
        /\ weight_data c'
           = fst (draw (policy_dist init_type gain (ConvTranspose2d_weight c))
                    (size (ConvTranspose2d_weight c)) g0)
  | _ => l' = l
  end.

(** [t'] is [t] after one draw has replaced its contents. *)
Definition drawn (d : Dist) (t t' : Tensor) : Prop :=
  exists g0, t' = mkTensor (size t) (fst (draw d (size t) g0)).

(** [keeps_state c Q]: [c] returns normally with a value that satisfies [Q]
    and hands back the generator state it was given. *)
Definition keeps_state {A} (c : M A) (Q : A -> Prop) : Prop :=
  forall g, exists a, c g = Ok (a, g) /\ Q a.

(** The three stages of a generator as the constructors build them, around
    their convolutions; [sn] tells whether spectral normalisation was
    requested and [o] is the number of output channels. *)
Definition built_encoder (sn : bool) (e : nnModule) : Prop :=
  exists c1 c2 c3,
    e = Sequential
          [ Builtin (ReflectionPad2d 3);
            Builtin (Conv2d c1); Builtin (InstanceNorm2d 64); Builtin (ReLU true);
            Builtin (Conv2d c2); Builtin (InstanceNorm2d 128); Builtin (ReLU true);
            Builtin (Conv2d c3); Builtin (InstanceNorm2d 256); Builtin (ReLU true) ]
    /\ built_conv 4 64 7 1 0 1 true sn c1
    /\ built_conv 64 128 4 2 1 1 true sn c2
    /\ built_conv 128 256 4 2 1 1 true sn c3.

Definition built_middle (n : nat) (sn : bool) (mi : nnModule) : Prop :=
  exists bs,
    mi = Sequential bs /\ length bs = n /\ Forall (built_block 256 2 sn) bs.

Definition built_decoder (sn : bool) (o : nat) (d : nnModule) : Prop :=
  exists c4 c5 c6,
    d = Sequential
          [ Builtin (ConvTranspose2d c4); Builtin (InstanceNorm2d 128);
            Builtin (ReLU true);
            Builtin (ConvTranspose2d c5); Builtin (InstanceNorm2d 64);
            Builtin (ReLU true);
            Builtin (ReflectionPad2d 3);
            Builtin (Conv2d c6) ]
    /\ built_conv 256 128 4 2 1 1 true sn c4
    /\ built_conv 128 64 4 2 1 1 true sn c5
    /\ built_conv 64 o 7 1 0 1 true false c6.

Definition built_generator (G : nnModule -> nnModule -> nnModule -> nnModule)
    (n : nat) (sn : bool) (o : nat) (self : nnModule) : Prop :=
  exists e mi d,
    self = G e mi d
    /\ built_encoder sn e /\ built_middle n sn mi /\ built_decoder sn o d.

(** The model a constructor returns from the tree [self] it has assembled:
    [self] after [init_weights()] when [init_weights] is true, [self]
    otherwise. *)
Definition initialised (iw : bool) (self m : nnModule) : Prop :=
  if iw then tree_rel (layer_init_rel "normal") self m else m = self.

(* ================================================================== *)
(** ** Induction on module trees *)

Section nnModule_induction.
Variable P : nnModule -> Prop.
Hypothesis P_Builtin : forall l, P (Builtin l).
Hypothesis P_Sequential : forall ms, Forall P ms -> P (Sequential ms).
Hypothesis P_ResnetBlock : forall cb, P cb -> P (ResnetBlock cb).
Hypothesis P_SRGenerator :
  forall e mi d, P e -> P mi -> P d -> P (SRGenerator e mi d).
Hypothesis P_EdgeGenerator :
  forall e mi d, P e -> P mi -> P d -> P (EdgeGenerator e mi d).

Fixpoint nnModule_tree_ind (m : nnModule) : P m :=
  match m with
  | Builtin l => P_Builtin l
  | Sequential ms =>
      P_Sequential
        ((fix all (l : list nnModule) : Forall P l :=
            match l with
            | [] => Forall_nil P
            | c :: l' => Forall_cons c (nnModule_tree_ind c) (all l')
            end) ms)
  | ResnetBlock cb => P_ResnetBlock (nnModule_tree_ind cb)
  | SRGenerator e mi d =>
      P_SRGenerator (nnModule_tree_ind e) (nnModule_tree_ind mi)
        (nnModule_tree_ind d)
  | EdgeGenerator e mi d =>
      P_EdgeGenerator (nnModule_tree_ind e) (nnModule_tree_ind mi)
        (nnModule_tree_ind d)
  end.
End nnModule_induction.

(* ================================================================== *)
(** ** Sizes *)

Lemma sizes_eqb_refl (s : list nat) : sizes_eqb s s = true.
Proof.
  induction s as [|a s IH]; simpl; [reflexivity|].
  now rewrite Nat.eqb_refl, IH.
Qed.

Lemma sizes_eqb_eq (s1 s2 : list nat) : sizes_eqb s1 s2 = true -> s1 = s2.
Proof.
  revert s2; induction s1 as [|a s1 IH]; intros [|b s2]; simpl;
    try discriminate; [reflexivity|].
  intros H. apply andb_prop in H as [Hab Hs].
  apply Nat.eqb_eq in Hab. now rewrite Hab, (IH _ Hs).
Qed.

Lemma add_size_same (s : list nat) : add_size s s = Ok s.
Proof. unfold add_size. now rewrite sizes_eqb_refl. Qed.

Lemma tensor_add_size (x y : Tensor) :
  rmap size (tensor_add ar x y) = add_size (size x) (size y).
Proof.
  unfold tensor_add, add_size.
  destruct (sizes_eqb (size x) (size y)); [reflexivity|].
  now destruct (broadcast_rev (rev (size x)) (rev (size y))).
Qed.

Lemma rmap_Ok {A B} (f : A -> B) (c : result A) (b : B) :
  rmap f c = Ok b -> exists a, c = Ok a /\ f a = b.
Proof.
  destruct c as [a|e]; simpl; [|discriminate].
  intros H; injection H as <-. now exists a.
Qed.

Lemma rbind_Ok {A B} (c : result A) (k : A -> result B) (b : B) :
  rbind c k = Ok b -> exists a, c = Ok a /\ k a = Ok b.
Proof. destruct c as [a|e]; simpl; [|discriminate]. now exists a. Qed.

Lemma run_seq_app {A} (f : nnModule -> A -> result A) (l1 l2 : list nnModule) (a : A) :
  run_seq f (l1 ++ l2) a = rbind (run_seq f l1 a) (run_seq f l2).
Proof.
  revert a; induction l1 as [|c l1 IH]; intros a; simpl; [reflexivity|].
  destruct (f c a); simpl; [apply IH | reflexivity].
Qed.

(** The size of what [forward] returns is the one [out_size] computes, and
    [forward] raises exactly when [out_size] does. *)
Lemma forward_size (m : nnModule) :
  forall x, rmap size (forward m x) = out_size m (size x).
Proof.
  induction m as [l|ms IH|cb IH|e mi d IHe IHmi IHd|e mi d IHe IHmi IHd]
    using nnModule_tree_ind; intros x; simpl.
  - now destruct (Layer_out_size l (size x)).
  - revert x. induction IH as [|c ms Hc _ IHms]; intros x; simpl; [reflexivity|].
    specialize (Hc x). destruct (forward c x) as [y|err]; simpl in *;
      rewrite <- Hc; simpl; [apply IHms | reflexivity].
  - specialize (IH x). destruct (forward cb x) as [fx|err]; simpl in *;
      rewrite <- IH; simpl; [apply tensor_add_size | reflexivity].
  - specialize (IHe x). destruct (forward e x) as [x1|err]; simpl in *;
      rewrite <- IHe; simpl; [|reflexivity].
    specialize (IHmi x1). destruct (forward mi x1) as [x2|err]; simpl in *;
      rewrite <- IHmi; simpl; [|reflexivity].
    specialize (IHd x2). destruct (forward d x2) as [x3|err]; simpl in *;
      rewrite <- IHd; reflexivity.
  - specialize (IHe x). destruct (forward e x) as [x1|err]; simpl in *;
      rewrite <- IHe; simpl; [|reflexivity].
    specialize (IHmi x1). destruct (forward mi x1) as [x2|err]; simpl in *;
      rewrite <- IHmi; simpl; [|reflexivity].
    specialize (IHd x2). destruct (forward d x2) as [x3|err]; simpl in *;
      rewrite <- IHd; reflexivity.
Qed.

Lemma forward_returns (m : nnModule) (x : Tensor) (s : list nat) :
  out_size m (size x) = Ok s ->
  exists y, forward m x = Ok y /\ size y = s.
Proof. rewrite <- forward_size. apply rmap_Ok. Qed.

Lemma forward_Ok_size (m : nnModule) (x y : Tensor) :
  forward m x = Ok y -> out_size m (size x) = Ok (size y).
Proof. intros H. rewrite <- forward_size, H. reflexivity. Qed.

(** Sizes depend on the architecture only. *)
Lemma Layer_arch_out_size (l : Layer) (s : list nat) :
  Layer_out_size (Layer_arch l) s = Layer_out_size l s.
Proof. destruct l; reflexivity. Qed.

Lemma arch_out_size (m : nnModule) :
  forall s, out_size (arch m) s = out_size m s.
Proof.
  induction m as [l|ms IH|cb IH|e mi d IHe IHmi IHd|e mi d IHe IHmi IHd]
    using nnModule_tree_ind; intros s; simpl.
  - apply Layer_arch_out_size.
  - revert s. induction IH as [|c ms Hc _ IHms]; intros s; simpl; [reflexivity|].
    rewrite Hc. destruct (out_size c s); simpl; [apply IHms | reflexivity].
  - rewrite IH. reflexivity.
  - rewrite IHe. destruct (out_size e s); simpl; [|reflexivity].
    rewrite IHmi. destruct (out_size mi a); simpl; [apply IHd | reflexivity].
  - rewrite IHe. destruct (out_size e s); simpl; [|reflexivity].
    rewrite IHmi. destruct (out_size mi a); simpl; [apply IHd | reflexivity].
Qed.

(* ================================================================== *)
(** ** Reasoning about construction and initialisation *)

Lemma returns_ret {A} (a : A) (Q : A -> Prop) : Q a -> returns (ret a) Q.
Proof. intros H g. now exists a, g. Qed.

Lemma returns_bind {A B} (c : M A) (k : A -> M B) (P : A -> Prop) (Q : B -> Prop) :
  returns c P -> (forall a, P a -> returns (k a) Q) -> returns (bind c k) Q.
Proof.
  intros Hc Hk g. destruct (Hc g) as (a & g1 & E & Ha).
  destruct (Hk a Ha g1) as (b & g2 & E2 & Hb).
  exists b, g2. unfold bind. rewrite E. now split.
Qed.

Lemma returns_weaken {A} (c : M A) (P Q : A -> Prop) :
  returns c P -> (forall a, P a -> Q a) -> returns c Q.
Proof.
  intros Hc HPQ g. destruct (Hc g) as (a & g' & E & Ha).
  exists a, g'. split; [exact E | now apply HPQ].
Qed.

Lemma returns_draw_data (d : Dist) (s : list nat) :
  returns (draw_data d s) (fun _ => True).
Proof.
  intros g. unfold draw_data. destruct (draw d s g) as [v g'].
  now exists v, g'.
Qed.

Lemma returns_mapM {A B} (f : A -> M B) (R : A -> B -> Prop) (l : list A) :
  Forall (fun a => returns (f a) (R a)) l ->
  returns (mapM f l) (Forall2 R l).
Proof.
  induction 1 as [|a l Ha _ IH]; simpl.
  - apply returns_ret. constructor.
  - eapply returns_bind; [exact Ha|]. intros b Hb.
    eapply returns_bind; [exact IH|]. intros bs Hbs.
    apply returns_ret. now constructor.
Qed.

(** *** What the constructors build *)

Lemma new_Conv_spec (i o k s p d : nat) (b : bool) :
  returns (new_Conv i o k s p d b) (built_conv i o k s p d b false).
Proof.
  unfold new_Conv.
  eapply returns_bind; [apply returns_draw_data|]. intros w _.
  eapply returns_bind
    with (P := fun ob => match ob with Some _ => true | None => false end = b).
  - destruct b.
    + eapply returns_bind; [apply returns_draw_data|]. intros v _.
      now apply returns_ret.
    + now apply returns_ret.
  - intros ob Hob. apply returns_ret. repeat split; assumption.
Qed.

Lemma with_spectral_spec (i o k s p d : nat) (b : bool) (c : Conv) :
  0 < o ->
  built_conv i o k s p d b false c ->
  returns (with_spectral c) (built_conv i o k s p d b true).
Proof.
  intros Ho (Ha & Hb & _). unfold with_spectral.
  assert (Eo : out_channels c = o)
    by (change (out_channels (Conv_arch c) = o); now rewrite Ha).
  destruct (Nat.eqb_spec (out_channels c) 0) as [E|_]; [lia|].
  eapply returns_bind; [apply returns_draw_data|]. intros u _.
  eapply returns_bind; [apply returns_draw_data|]. intros v _.
  apply returns_ret. repeat split; assumption.
Qed.

Lemma Conv2d_spec (i o k s p d : nat) (b sn : bool) :
  (sn = true -> 0 < o) ->
  returns (bind (new_Conv2d i o k s p d b) (fun l => spectral_norm l sn))
    (fun l => exists c, l = Conv2d c /\ built_conv i o k s p d b sn c).
Proof.
  intros Ho. unfold new_Conv2d.
  eapply returns_bind.
  - eapply returns_bind; [apply new_Conv_spec|]. intros c Hc.
    apply returns_ret with (Q := fun l => exists c, l = Conv2d c
                                    /\ built_conv i o k s p d b false c).
    now exists c.
  - intros l (c & -> & Hc). destruct sn; simpl.
    + eapply returns_bind; [apply (with_spectral_spec (Ho eq_refl) Hc)|].
      intros c' Hc'.
      apply returns_ret. now exists c'.
    + apply returns_ret. now exists c.
Qed.

Lemma ConvTranspose2d_spec (i o k s p d : nat) (b sn : bool) :
  (sn = true -> 0 < o) ->
  returns (bind (new_ConvTranspose2d i o k s p d b) (fun l => spectral_norm l sn))
    (fun l => exists c, l = ConvTranspose2d c /\ built_conv i o k s p d b sn c).
Proof.
  intros Ho. unfold new_ConvTranspose2d.
  eapply returns_bind.
  - eapply returns_bind; [apply new_Conv_spec|]. intros c Hc.
    apply returns_ret with (Q := fun l => exists c, l = ConvTranspose2d c
                                    /\ built_conv i o k s p d b false c).
    now exists c.
  - intros l (c & -> & Hc). destruct sn; simpl.
    + eapply returns_bind; [apply (with_spectral_spec (Ho eq_refl) Hc)|].
      intros c' Hc'.
      apply returns_ret. now exists c'.
    + apply returns_ret. now exists c.
Qed.

Lemma plain_Conv2d_spec (i o k s p d : nat) (b : bool) :
  returns (new_Conv2d i o k s p d b)
    (fun l => exists c, l = Conv2d c /\ built_conv i o k s p d b false c).
Proof.
  unfold new_Conv2d.
  eapply returns_bind; [apply new_Conv_spec|]. intros c Hc.
  apply returns_ret. now exists c.
Qed.

Lemma plain_ConvTranspose2d_spec (i o k s p d : nat) (b : bool) :
  returns (new_ConvTranspose2d i o k s p d b)
    (fun l => exists c, l = ConvTranspose2d c /\ built_conv i o k s p d b false c).
Proof.
  unfold new_ConvTranspose2d.
  eapply returns_bind; [apply new_Conv_spec|]. intros c Hc.
  apply returns_ret. now exists c.
Qed.

Lemma ResnetBlock_init_spec (dim dilation : nat) (sn : bool) :
  (sn = true -> 1 <= dim) ->
  returns (ResnetBlock_init dim dilation sn) (built_block dim dilation sn).
Proof.
  intros Hdim. unfold ResnetBlock_init.
  eapply returns_bind; [apply Conv2d_spec, Hdim|]. intros l1 (c1 & -> & H1).
  eapply returns_bind; [apply Conv2d_spec, Hdim|]. intros l2 (c2 & -> & H2).
  apply returns_ret. now exists c1, c2.
Qed.

Lemma built_block_arch (dim dilation : nat) (sn : bool) (m : nnModule) :
  built_block dim dilation sn m -> arch m = ResnetBlock_arch dim dilation.
Proof.
  intros (c1 & c2 & -> & (H1 & _) & (H2 & _)).
  unfold ResnetBlock_arch. simpl. now rewrite H1, H2.
Qed.

Lemma build_blocks_spec (n : nat) (mk : M nnModule) (P : nnModule -> Prop) :
  returns mk P ->
  returns (build_blocks n mk) (fun bs => length bs = n /\ Forall P bs).
Proof.
  intros Hmk. induction n as [|n IH]; simpl.
  - apply returns_ret. now split.
  - eapply returns_bind; [exact Hmk|]. intros b Hb.
    eapply returns_bind; [exact IH|]. intros bs (Hlen & Hbs).
    apply returns_ret. split; [simpl; now rewrite Hlen | now constructor].
Qed.

Lemma blocks_arch (n : nat) (a : nnModule) (bs : list nnModule) :
  length bs = n -> Forall (fun b => arch b = a) bs -> map arch bs = repeat a n.
Proof.
  intros <- H. induction H as [|b bs Hb _ IH]; simpl; [reflexivity|].
  now rewrite Hb, IH.
Qed.

(** *** What [init_weights] does to a tree *)

Lemma div_sqrt_nonneg (x y : R) : (0 <= sqrt x / sqrt y)%R.
Proof.
  unfold Rdiv. destruct (Req_dec (sqrt y) 0) as [E|E].
  - rewrite E, Rinv_0, Rmult_0_r. apply Rle_refl.
  - apply Rmult_le_pos; [apply sqrt_pos|].
    left. apply Rinv_0_lt_compat. pose proof (sqrt_pos y). lra.
Qed.

Lemma returns_lift_Ok {A B} (c : result A) (a : A) (k : A -> M B) (Q : B -> Prop) :
  c = Ok a -> returns (k a) Q -> returns (bind (lift c) k) Q.
Proof. intros -> H g. exact (H g). Qed.

Lemma normal__spec (t : Tensor) (mean std : R) :
  (0 <= std)%R ->
  returns (normal_ t mean std) (fun t' => size t' = size t).
Proof.
  intros H. unfold normal_. destruct (Rlt_dec std 0) as [N|_]; [lra|].
  eapply returns_bind; [apply returns_draw_data|].
  intros d _. now apply returns_ret.
Qed.

Lemma xavier_normal__spec (t : Tensor) (gain : R) (d0 d1 : nat) (rest : list nat) :
  size t = d0 :: d1 :: rest ->
  0 < d1 * fold_right Nat.mul 1 rest + d0 * fold_right Nat.mul 1 rest ->
  (0 <= gain)%R ->
  returns (xavier_normal_ t gain) (fun t' => size t' = size t).
Proof.
  intros Es Hf Hg. unfold xavier_normal_.
  eapply returns_lift_Ok;
    [unfold fan_in_and_fan_out; rewrite Es; reflexivity|].
  cbn [fst snd]. destruct (Nat.eqb_spec
    (d1 * fold_right Nat.mul 1 rest + d0 * fold_right Nat.mul 1 rest) 0) as [E|_];
    [rewrite E in Hf; now apply Nat.lt_irrefl in Hf|].
  apply normal__spec. apply Rmult_le_pos; [exact Hg | apply sqrt_pos].
Qed.

Lemma kaiming_normal__spec (t : Tensor) (a : R) :
  2 <= length (size t) ->
  returns (kaiming_normal_ t a "fan_in") (fun t' => size t' = size t).
Proof.
  intros H. unfold kaiming_normal_.
  destruct (existsb (Nat.eqb 0) (size t)); [now apply returns_ret|].
  assert (Hfan : exists fan, calculate_correct_fan t "fan_in" = Ok fan).
  { unfold calculate_correct_fan, fan_in_and_fan_out.
    destruct (size t) as [|d0 [|d1 rest]]; simpl in H;
      try (exfalso; clear - H; lia).
    eexists; reflexivity. }
  destruct Hfan as (fan & Efan).
  eapply returns_lift_Ok; [exact Efan|].
  apply normal__spec, div_sqrt_nonneg.
Qed.

Lemma orthogonal__spec (t : Tensor) (gain : R) :
  2 <= length (size t) ->
  returns (orthogonal_ t gain) (fun t' => size t' = size t).
Proof.
  intros H. unfold orthogonal_.
  apply Nat.ltb_ge in H. rewrite H.
  destruct (numel t =? 0); [now apply returns_ret|].
  eapply returns_bind; [apply returns_draw_data|].
  intros d _. now apply returns_ret.
Qed.

Lemma unknown_accepted (t : string) (gain : R) (c : Conv) :
  ~ In t policies -> accepted t gain c.
Proof.
  intros Hn. split; intros ->; exfalso; apply Hn; simpl; tauto.
Qed.

Lemma default_accepted (c : Conv) : accepted "normal" (2 / 100) c.
Proof. split; [intros _; lra | discriminate]. Qed.

Lemma kaiming_accepted (gain : R) (c : Conv) : accepted "kaiming" gain c.
Proof. split; discriminate. Qed.

Lemma unknown_accepted_all (t : string) (gain : R) (m : nnModule) :
  ~ In t policies -> Forall (accepted t gain) (convs m).
Proof. intros Hn. apply Forall_forall. intros c _. now apply unknown_accepted. Qed.

Lemma default_accepted_all (m : nnModule) :
  Forall (accepted "normal" (2 / 100)) (convs m).
Proof. apply Forall_forall. intros c _. apply default_accepted. Qed.

Lemma fans_positive (i o k : nat) :
  0 < k -> 0 < i + o -> 0 < i * (k * (k * 1)) + o * (k * (k * 1)).
Proof. intros Hk Hio. assert (0 < k * (k * 1)) by nia. nia. Qed.

Ltac weight_branch spec :=
  unfold on_weight_data; simpl;
  eapply returns_bind; [ spec |];
  intros ? _;
  apply returns_ret; eexists; split; [reflexivity|];
  repeat split; intros Hno; exfalso; apply Hno; simpl; tauto.

Lemma weight_step_Conv2d (t : string) (gain : R) (c : Conv) :
  accepted t gain c ->
  returns
    (if (t =? "normal")%string then
       on_weight_data (fun w => normal_ w 0 gain) (Builtin (Conv2d c))
     else if (t =? "xavier")%string then
       on_weight_data (fun w => xavier_normal_ w gain) (Builtin (Conv2d c))
     else if (t =? "kaiming")%string then
       on_weight_data (fun w => kaiming_normal_ w 0 "fan_in") (Builtin (Conv2d c))
     else if (t =? "orthogonal")%string then
       on_weight_data (fun w => orthogonal_ w gain) (Builtin (Conv2d c))
     else ret (Builtin (Conv2d c)))
    (fun m1 => exists c1, m1 = Builtin (Conv2d c1) /\ weight_step_rel t c c1).
Proof.
  intros (Hnormal & Hxavier).
  destruct (String.eqb_spec t "normal") as [->|N1];
    [weight_branch ltac:(apply normal__spec; auto)|].
  destruct (String.eqb_spec t "xavier") as [->|N2];
    [destruct (Hxavier eq_refl) as (Hg & Hk & Hio);
     weight_branch ltac:(eapply xavier_normal__spec;
                         [reflexivity | apply fans_positive; lia | exact Hg])|].
  destruct (String.eqb_spec t "kaiming") as [->|N3];
    [weight_branch ltac:(apply kaiming_normal__spec; simpl; lia)|].
  destruct (String.eqb_spec t "orthogonal") as [->|N4];
    [weight_branch ltac:(apply orthogonal__spec; simpl; lia)|].
  apply returns_ret. exists c. now repeat split.
Qed.

Lemma weight_step_ConvTranspose2d (t : string) (gain : R) (c : Conv) :
  accepted t gain c ->
  returns
    (if (t =? "normal")%string then
       on_weight_data (fun w => normal_ w 0 gain) (Builtin (ConvTranspose2d c))
     else if (t =? "xavier")%string then
       on_weight_data (fun w => xavier_normal_ w gain) (Builtin (ConvTranspose2d c))
     else if (t =? "kaiming")%string then
       on_weight_data (fun w => kaiming_normal_ w 0 "fan_in")
         (Builtin (ConvTranspose2d c))
     else if (t =? "orthogonal")%string then
       on_weight_data (fun w => orthogonal_ w gain) (Builtin (ConvTranspose2d c))
     else ret (Builtin (ConvTranspose2d c)))
    (fun m1 => exists c1, m1 = Builtin (ConvTranspose2d c1) /\ weight_step_rel t c c1).
Proof.
  intros (Hnormal & Hxavier).
  destruct (String.eqb_spec t "normal") as [->|N1];
    [weight_branch ltac:(apply normal__spec; auto)|].
  destruct (String.eqb_spec t "xavier") as [->|N2];
    [destruct (Hxavier eq_refl) as (Hg & Hk & Hio);
     weight_branch ltac:(eapply xavier_normal__spec;
                         [reflexivity | apply fans_positive; lia | exact Hg])|].
  destruct (String.eqb_spec t "kaiming") as [->|N3];
    [weight_branch ltac:(apply kaiming_normal__spec; simpl; lia)|].
  destruct (String.eqb_spec t "orthogonal") as [->|N4];
    [weight_branch ltac:(apply orthogonal__spec; simpl; lia)|].
  apply returns_ret. exists c. now repeat split.
Qed.

Lemma init_func_Builtin (t : string) (gain : R) (l : Layer) :
  Forall (accepted t gain) (convs (Builtin l)) ->
  returns (init_func t gain (Builtin l))
    (fun m' => exists l', m' = Builtin l' /\ layer_init_rel t l l').
Proof.
  intros Hacc.
  destruct l as [p|c|c|n|b];
    try (apply returns_ret; eexists; split; reflexivity).
  - apply Forall_inv in Hacc. unfold init_func.
    change (class_name (Builtin (Conv2d c))) with "Conv2d"%string.
    change (hasattr (weight_attr (Builtin (Conv2d c)))
            && (negb (find "Conv2d" "Conv" =? -1)%Z
                || negb (find "Conv2d" "Linear" =? -1)%Z)) with true.
    cbv iota.
    eapply returns_bind; [apply weight_step_Conv2d, Hacc|].
    intros m1 (c1 & -> & Ha & Hs & Hb & Hw). simpl.
    unfold Conv_bias. destruct (bias_data c1) as [b1|] eqn:Eb; simpl.
    + unfold on_bias_data; simpl. unfold Conv_bias; rewrite Eb; simpl.
      apply returns_ret. eexists; split; [reflexivity|].
      eexists; split; [reflexivity|].
      split; [exact Ha | split; [exact Hs | split; [|exact Hw]]].
      simpl. now rewrite <- Hb.
    + apply returns_ret. eexists; split; [reflexivity|].
      exists c1; split; [reflexivity|].
      split; [exact Ha | split; [exact Hs | split; [|exact Hw]]].
      now rewrite <- Hb.
  - apply Forall_inv in Hacc. unfold init_func.
    change (class_name (Builtin (ConvTranspose2d c))) with "ConvTranspose2d"%string.
    change (hasattr (weight_attr (Builtin (ConvTranspose2d c)))
            && (negb (find "ConvTranspose2d" "Conv" =? -1)%Z
                || negb (find "ConvTranspose2d" "Linear" =? -1)%Z)) with true.
    cbv iota.
    eapply returns_bind; [apply weight_step_ConvTranspose2d, Hacc|].
    intros m1 (c1 & -> & Ha & Hs & Hb & Hw). simpl.
    unfold Conv_bias. destruct (bias_data c1) as [b1|] eqn:Eb; simpl.
    + unfold on_bias_data; simpl. unfold Conv_bias; rewrite Eb; simpl.
      apply returns_ret. eexists; split; [reflexivity|].
      eexists; split; [reflexivity|].
      split; [exact Ha | split; [exact Hs | split; [|exact Hw]]].
      simpl. now rewrite <- Hb.
    + apply returns_ret. eexists; split; [reflexivity|].
      exists c1; split; [reflexivity|].
      split; [exact Ha | split; [exact Hs | split; [|exact Hw]]].
      now rewrite <- Hb.
Qed.

Lemma Forall_flat_map_convs (P : Conv -> Prop) (ms : list nnModule) :
  Forall P (flat_map convs ms) -> Forall (fun m => Forall P (convs m)) ms.
Proof.
  induction ms as [|m ms IH]; simpl; intros H; [constructor|].
  apply Forall_app in H as [H1 H2]. constructor; auto.
Qed.

Lemma Forall_modus_ponens {A} (P Q : A -> Prop) (l : list A) :
  Forall (fun a => P a -> Q a) l -> Forall P l -> Forall Q l.
Proof.
  induction 1 as [|a l Ha _ IH]; intros HP; [constructor|].
  inversion HP; subst. constructor; auto.
Qed.

Lemma apply_init_func_spec (t : string) (gain : R) (m : nnModule) :
  Forall (accepted t gain) (convs m) ->
  returns (apply (init_func t gain) m) (tree_rel (layer_init_rel t) m).
Proof.
  induction m as [l|ms IH|cb IH|e mi d IHe IHmi IHd|e mi d IHe IHmi IHd]
    using nnModule_tree_ind; intros Hacc; simpl.
  - eapply returns_weaken; [apply init_func_Builtin, Hacc|].
    intros m' (l' & -> & Hl). now constructor.
  - simpl in Hacc. apply Forall_flat_map_convs in Hacc.
    eapply returns_bind;
      [apply (returns_mapM _ _ (@Forall_modus_ponens _ _ _ _ IH Hacc))|].
    intros ms' Hms. apply returns_ret. now constructor.
  - eapply returns_bind; [exact (IH Hacc)|].
    intros cb' Hcb. apply returns_ret. now constructor.
  - simpl in Hacc. apply Forall_app in Hacc as [He Hacc].
    apply Forall_app in Hacc as [Hmi Hd].
    eapply returns_bind; [exact (IHe He)|]. intros e' He'.
    eapply returns_bind; [exact (IHmi Hmi)|]. intros mi' Hmi'.
    eapply returns_bind; [exact (IHd Hd)|]. intros d' Hd'.
    apply returns_ret. now constructor.
  - simpl in Hacc. apply Forall_app in Hacc as [He Hacc].
    apply Forall_app in Hacc as [Hmi Hd].
    eapply returns_bind; [exact (IHe He)|]. intros e' He'.
    eapply returns_bind; [exact (IHmi Hmi)|]. intros mi' Hmi'.
    eapply returns_bind; [exact (IHd Hd)|]. intros d' Hd'.
    apply returns_ret. now constructor.
Qed.

Lemma layer_init_rel_arch (t : string) (l l' : Layer) :
  layer_init_rel t l l' -> Layer_arch l' = Layer_arch l.
Proof.
  destruct l; simpl; try (intros ->; reflexivity);
    intros (c' & -> & Ha & _); simpl; now rewrite Ha.
Qed.

Lemma tree_rel_arch (R : Layer -> Layer -> Prop) :
  (forall l l', R l l' -> Layer_arch l' = Layer_arch l) ->
  forall m m', tree_rel R m m' -> arch m' = arch m.
Proof.
  intros HR m.
  induction m as [l|ms IH|cb IH|e mi d IHe IHmi IHd|e mi d IHe IHmi IHd]
    using nnModule_tree_ind; intros m' H; inversion H; subst; simpl.
  - now rewrite (HR _ _ H1).
  - f_equal. clear H.
    match goal with F : Forall2 _ ms _ |- _ => rename F into HF end.
    induction HF as [|c c' ms ms' Hc _ IHF]; simpl; [reflexivity|].
    inversion IH; subst. f_equal; auto.
  - f_equal; auto.
  - f_equal; auto.
  - f_equal; auto.
Qed.

Lemma tree_rel_modules (R : Layer -> Layer -> Prop) (m : nnModule) :
  forall m', tree_rel R m m' -> Forall2 (tree_rel R) (modules m) (modules m').
Proof.
  induction m as [l|ms IH|cb IH|e mi d IHe IHmi IHd|e mi d IHe IHmi IHd]
    using nnModule_tree_ind; intros m' H; inversion H; subst; simpl.
  - repeat constructor. assumption.
  - apply Forall2_app; [|repeat constructor; assumption].
    match goal with F : Forall2 _ ms _ |- _ => rename F into HF end.
    clear H. induction HF as [|c c' ms ms' Hc _ IHF]; simpl; [constructor|].
    inversion IH; subst. apply Forall2_app; auto.
  - apply Forall2_app; [auto | repeat constructor; assumption].
  - repeat (apply Forall2_app; auto); repeat constructor; assumption.
  - repeat (apply Forall2_app; auto); repeat constructor; assumption.
Qed.

Lemma init_weights_arch (m : nnModule) (t : string) (gain : R) :
  Forall (accepted t gain) (convs m) ->
  returns (init_weights m t gain) (fun m' => arch m' = arch m).
Proof.
  intros Hacc. eapply returns_weaken; [apply apply_init_func_spec, Hacc|].
  intros m'. apply tree_rel_arch. apply layer_init_rel_arch.
Qed.

(** *** Sizes through the stages *)

Lemma size_pad (p n c h w h' w' : nat) :
  0 < c -> p < h -> p < w -> h' = h + 2 * p -> w' = w + 2 * p ->
  Layer_out_size (ReflectionPad2d p) [n; c; h; w] = Ok [n; c; h'; w'].
Proof.
  intros Hc Hh Hw -> ->. simpl.
  apply Nat.ltb_lt in Hc, Hh, Hw. now rewrite Hc, Hh, Hw.
Qed.

Lemma conv_extent_Ok (h k s p d v : nat) :
  0 < k -> 0 < s -> 0 < d -> d * (k - 1) + 1 <= h + 2 * p ->
  v = (h + 2 * p - (d * (k - 1) + 1)) / s + 1 ->
  conv_extent h k s p d = Ok v.
Proof.
  intros Hk Hs Hd Hle ->. unfold conv_extent.
  apply Nat.ltb_lt in Hk, Hs, Hd. rewrite Hk, Hs, Hd.
  apply Nat.leb_le in Hle. now rewrite Hle.
Qed.

Lemma conv_transpose_extent_Ok (h k s p d v : nat) :
  0 < k -> 0 < s -> 0 < d -> 0 < h ->
  2 * p < (h - 1) * s + d * (k - 1) + 1 ->
  v = (h - 1) * s + d * (k - 1) + 1 - 2 * p ->
  conv_transpose_extent h k s p d = Ok v.
Proof.
  intros Hk Hs Hd Hh Hlt ->. unfold conv_transpose_extent.
  apply Nat.ltb_lt in Hk, Hs, Hd, Hh. rewrite Hk, Hs, Hd, Hh.
  apply Nat.ltb_lt in Hlt. now rewrite Hlt.
Qed.

Lemma size_conv (i o k s p d n h w h' w' : nat) :
  conv_extent h k s p d = Ok h' -> conv_extent w k s p d = Ok w' ->
  Layer_out_size (Conv2d (plain_conv i o k s p d)) [n; i; h; w] = Ok [n; o; h'; w'].
Proof. intros Hh Hw. simpl. now rewrite Nat.eqb_refl, Hh, Hw. Qed.

Lemma size_conv_transpose (i o k s p d n h w h' w' : nat) :
  conv_transpose_extent h k s p d = Ok h' ->
  conv_transpose_extent w k s p d = Ok w' ->
  Layer_out_size (ConvTranspose2d (plain_conv i o k s p d)) [n; i; h; w]
  = Ok [n; o; h'; w'].
Proof. intros Hh Hw. simpl. now rewrite Nat.eqb_refl, Hh, Hw. Qed.

Lemma size_instance_norm (f n c h w : nat) :
  h * w <> 1 ->
  Layer_out_size (InstanceNorm2d f) [n; c; h; w] = Ok [n; c; h; w].
Proof. intros H. simpl. apply Nat.eqb_neq in H. now rewrite H. Qed.

Lemma run_seq_Builtin (l : Layer) (ms : list nnModule) (s s' : list nat) :
  Layer_out_size l s = Ok s' ->
  run_seq out_size (Builtin l :: ms) s = run_seq out_size ms s'.
Proof. intros H. simpl. now rewrite H. Qed.

Ltac extent :=
  first [ apply conv_extent_Ok | apply conv_transpose_extent_Ok ]; try lia.

Lemma encoder_size (n h w : nat) :
  0 < h -> 0 < w -> h * w <> 1 ->
  out_size encoder_arch [n; 4; 4 * h; 4 * w] = Ok [n; 256; h; w].
Proof.
  intros Hh Hw Hhw. unfold encoder_arch, out_size; fold out_size.
  rewrite run_seq_Builtin with (s' := [n; 4; 4 * h + 6; 4 * w + 6])
    by (apply size_pad; lia).
  rewrite run_seq_Builtin with (s' := [n; 64; 4 * h; 4 * w])
    by (apply size_conv; extent).
  rewrite run_seq_Builtin with (s' := [n; 64; 4 * h; 4 * w])
    by (apply size_instance_norm; nia).
  rewrite run_seq_Builtin with (s' := [n; 64; 4 * h; 4 * w]) by reflexivity.
  rewrite run_seq_Builtin with (s' := [n; 128; 2 * h; 2 * w])
    by (apply size_conv; extent).
  rewrite run_seq_Builtin with (s' := [n; 128; 2 * h; 2 * w])
    by (apply size_instance_norm; nia).
  rewrite run_seq_Builtin with (s' := [n; 128; 2 * h; 2 * w]) by reflexivity.
  rewrite run_seq_Builtin with (s' := [n; 256; h; w])
    by (apply size_conv; extent).
  rewrite run_seq_Builtin with (s' := [n; 256; h; w])
    by (apply size_instance_norm; assumption).
  rewrite run_seq_Builtin with (s' := [n; 256; h; w]) by reflexivity.
  reflexivity.
Qed.

Lemma decoder_size (o n h w : nat) :
  0 < h -> 0 < w ->
  out_size (decoder_arch o) [n; 256; h; w] = Ok [n; o; 4 * h; 4 * w].
Proof.
  intros Hh Hw. unfold decoder_arch, out_size; fold out_size.
  rewrite run_seq_Builtin with (s' := [n; 128; 2 * h; 2 * w])
    by (apply size_conv_transpose; extent).
  rewrite run_seq_Builtin with (s' := [n; 128; 2 * h; 2 * w])
    by (apply size_instance_norm; nia).
  rewrite run_seq_Builtin with (s' := [n; 128; 2 * h; 2 * w]) by reflexivity.
  rewrite run_seq_Builtin with (s' := [n; 64; 4 * h; 4 * w])
    by (apply size_conv_transpose; extent).
  rewrite run_seq_Builtin with (s' := [n; 64; 4 * h; 4 * w])
    by (apply size_instance_norm; nia).
  rewrite run_seq_Builtin with (s' := [n; 64; 4 * h; 4 * w]) by reflexivity.
  rewrite run_seq_Builtin with (s' := [n; 64; 4 * h + 6; 4 * w + 6])
    by (apply size_pad; lia).
  rewrite run_seq_Builtin with (s' := [n; o; 4 * h; 4 * w])
    by (apply size_conv; extent).
  reflexivity.
Qed.

(** The stack inside a residual block keeps the size of its input. *)
Lemma conv_block_size (dim dilation n h w : nat) :
  1 <= dim -> 1 <= dilation -> dilation < h -> dilation < w ->
  out_size
    (conv_block_of dim dilation (plain_conv dim dim 3 1 0 dilation)
       (plain_conv dim dim 3 1 0 1)) [n; dim; h; w]
  = Ok [n; dim; h; w].
Proof.
  intros Hdim Hd Hh Hw. unfold conv_block_of, out_size; fold out_size.
  rewrite run_seq_Builtin with (s' := [n; dim; h + 2 * dilation; w + 2 * dilation])
    by (apply size_pad; lia).
  rewrite run_seq_Builtin with (s' := [n; dim; h; w])
    by (apply size_conv; extent).
  rewrite run_seq_Builtin with (s' := [n; dim; h; w])
    by (apply size_instance_norm; nia).
  rewrite run_seq_Builtin with (s' := [n; dim; h; w]) by reflexivity.
  rewrite run_seq_Builtin with (s' := [n; dim; h + 2; w + 2])
    by (apply size_pad; lia).
  rewrite run_seq_Builtin with (s' := [n; dim; h; w])
    by (apply size_conv; extent).
  rewrite run_seq_Builtin with (s' := [n; dim; h; w])
    by (apply size_instance_norm; nia).
  reflexivity.
Qed.

Lemma ResnetBlock_arch_size (dim dilation n h w : nat) :
  1 <= dim -> 1 <= dilation -> dilation < h -> dilation < w ->
  out_size (ResnetBlock_arch dim dilation) [n; dim; h; w] = Ok [n; dim; h; w].
Proof.
  intros Hdim Hd Hh Hw.
  change (out_size (ResnetBlock_arch dim dilation) [n; dim; h; w])
    with (rbind (out_size
                   (conv_block_of dim dilation (plain_conv dim dim 3 1 0 dilation)
                      (plain_conv dim dim 3 1 0 1)) [n; dim; h; w])
            (add_size [n; dim; h; w])).
  rewrite conv_block_size by assumption. cbn [rbind]. apply add_size_same.
Qed.

Lemma middle_size (k n h w : nat) :
  k = 0 \/ (3 <= h /\ 3 <= w) ->
  out_size (middle_arch k) [n; 256; h; w] = Ok [n; 256; h; w].
Proof.
  intros H. unfold middle_arch.
  change (run_seq out_size (repeat (ResnetBlock_arch 256 2) k) [n; 256; h; w]
          = Ok [n; 256; h; w]).
  induction k as [|k IH]; [reflexivity|].
  destruct H as [H|[Hh Hw]]; [discriminate|].
  change (rbind (out_size (ResnetBlock_arch 256 2) [n; 256; h; w])
            (run_seq out_size (repeat (ResnetBlock_arch 256 2) k))
          = Ok [n; 256; h; w]).
  rewrite ResnetBlock_arch_size by lia. cbn [rbind]. apply IH. now right.
Qed.

Lemma generator_size (k o n h w : nat)
    (G : nnModule -> nnModule -> nnModule -> nnModule) :
  G = SRGenerator \/ G = EdgeGenerator ->
  0 < h -> 0 < w -> h * w <> 1 -> k = 0 \/ (3 <= h /\ 3 <= w) ->
  out_size (G encoder_arch (middle_arch k) (decoder_arch o)) [n; 4; 4 * h; 4 * w]
  = Ok [n; o; 4 * h; 4 * w].
Proof.
  intros HG Hh Hw Hhw Hk.
  assert (E : out_size (G encoder_arch (middle_arch k) (decoder_arch o))
                [n; 4; 4 * h; 4 * w]
              = rbind (out_size encoder_arch [n; 4; 4 * h; 4 * w])
                  (fun s1 => rbind (out_size (middle_arch k) s1)
                               (out_size (decoder_arch o))))
    by (destruct HG as [->| ->]; reflexivity).
  rewrite E, encoder_size by assumption. cbn [rbind].
  rewrite middle_size by assumption. cbn [rbind].
  now apply decoder_size.
Qed.

(** *** The architectures the constructors return *)

Lemma SRGenerator_init_spec (scale residual_blocks : Z) (iw : bool) :
  returns (SRGenerator_init scale residual_blocks iw)
    (fun m => arch m = SRGenerator_arch (Z.to_nat residual_blocks)).
Proof.
  unfold SRGenerator_init.
  eapply returns_bind; [apply plain_Conv2d_spec|]. intros e1 (c1 & -> & (A1 & _)).
  eapply returns_bind; [apply plain_Conv2d_spec|]. intros e2 (c2 & -> & (A2 & _)).
  eapply returns_bind; [apply plain_Conv2d_spec|]. intros e3 (c3 & -> & (A3 & _)).
  eapply returns_bind; [apply build_blocks_spec, ResnetBlock_init_spec; intros _; lia|].
  intros blocks (Hlen & Hbs).
  eapply returns_bind; [apply plain_ConvTranspose2d_spec|].
  intros d1 (c4 & -> & (A4 & _)).
  eapply returns_bind; [apply plain_ConvTranspose2d_spec|].
  intros d2 (c5 & -> & (A5 & _)).
  eapply returns_bind; [apply plain_Conv2d_spec|]. intros d3 (c6 & -> & (A6 & _)).
  assert (Hb : map arch blocks
               = repeat (ResnetBlock_arch 256 2) (Z.to_nat residual_blocks)).
  { apply blocks_arch; [exact Hlen|].
    eapply Forall_impl; [|exact Hbs]. intros b. apply built_block_arch. }
  cbv zeta.
  destruct iw;
    [ eapply returns_weaken; [apply init_weights_arch, default_accepted_all|];
      intros m' E; rewrite E
    | apply returns_ret ];
    cbn [arch map Layer_arch]; rewrite A1, A2, A3, A4, A5, A6, Hb; reflexivity.
Qed.

Lemma EdgeGenerator_init_spec (scale residual_blocks : Z) (sn iw : bool) :
  returns (EdgeGenerator_init scale residual_blocks sn iw)
    (fun m => arch m = EdgeGenerator_arch (Z.to_nat residual_blocks)).
Proof.
  unfold EdgeGenerator_init.
  eapply returns_bind; [apply Conv2d_spec; intros _; lia|]. intros e1 (c1 & -> & (A1 & _)).
  eapply returns_bind; [apply Conv2d_spec; intros _; lia|]. intros e2 (c2 & -> & (A2 & _)).
  eapply returns_bind; [apply Conv2d_spec; intros _; lia|]. intros e3 (c3 & -> & (A3 & _)).
  eapply returns_bind; [apply build_blocks_spec, ResnetBlock_init_spec; intros _; lia|].
  intros blocks (Hlen & Hbs).
  eapply returns_bind; [apply ConvTranspose2d_spec; intros _; lia|].
  intros d1 (c4 & -> & (A4 & _)).
  eapply returns_bind; [apply ConvTranspose2d_spec; intros _; lia|].
  intros d2 (c5 & -> & (A5 & _)).
  eapply returns_bind; [apply plain_Conv2d_spec|]. intros d3 (c6 & -> & (A6 & _)).
  assert (Hb : map arch blocks
               = repeat (ResnetBlock_arch 256 2) (Z.to_nat residual_blocks)).
  { apply blocks_arch; [exact Hlen|].
    eapply Forall_impl; [|exact Hbs]. intros b. apply built_block_arch. }
  cbv zeta.
  destruct iw;
    [ eapply returns_weaken; [apply init_weights_arch, default_accepted_all|];
      intros m' E; rewrite E
    | apply returns_ret ];
    cbn [arch map Layer_arch]; rewrite A1, A2, A3, A4, A5, A6, Hb; reflexivity.
Qed.

Lemma EdgeSRModel_init_spec (sn : bool) :
  returns (EdgeSRModel_init sn)
    (fun self => arch (edge_generator self) = EdgeGenerator_arch 8
                 /\ arch (sr_generator self) = SRGenerator_arch 8).
Proof.
  unfold EdgeSRModel_init.
  eapply returns_bind; [apply EdgeGenerator_init_spec|]. intros eg Heg.
  eapply returns_bind; [apply SRGenerator_init_spec|]. intros sg Hsg.
  apply returns_ret. now split.
Qed.

Lemma arch_SRGenerator_inv (m a b c : nnModule) :
  arch m = SRGenerator a b c ->
  exists e mi d, m = SRGenerator e mi d /\ arch e = a /\ arch mi = b /\ arch d = c.
Proof.
  destruct m; simpl; try discriminate.
  intros H; injection H as <- <- <-. now eexists _, _, _.
Qed.

Lemma arch_EdgeGenerator_inv (m a b c : nnModule) :
  arch m = EdgeGenerator a b c ->
  exists e mi d, m = EdgeGenerator e mi d /\ arch e = a /\ arch mi = b /\ arch d = c.
Proof.
  destruct m; simpl; try discriminate.
  intros H; injection H as <- <- <-. now eexists _, _, _.
Qed.

Lemma arch_Sequential_nil (m : nnModule) :
  arch m = Sequential [] -> m = Sequential [].
Proof.
  destruct m as [l|ms| | |]; simpl; try discriminate.
  destruct ms; [reflexivity | discriminate].
Qed.

(** *** Interpolation and concatenation on (N, C, H, W) tensors *)

Lemma interpolate_4d (x : Tensor) (n c h w k : nat) :
  size x = [n; c; h; w] -> 0 < h -> 0 < w -> 0 < k ->
  exists y, interpolate x k = Ok y
            /\ size y = [n; c; k * h; k * w]
            /\ forall b ch i j, data y [b; ch; i; j] = data x [b; ch; i / k; j / k].
Proof.
  intros Hs Hh Hw Hk. unfold interpolate. rewrite Hs.
  cbn [length Nat.leb andb forallb map].
  apply Nat.ltb_lt in Hh, Hw, Hk. rewrite Hh, Hw, Hk. cbn [andb].
  eexists; split; [reflexivity|]. split; [|reflexivity].
  cbn [size]. now rewrite (Nat.mul_comm h), (Nat.mul_comm w).
Qed.

Lemma cat_channels (a b : Tensor) (n c1 c2 h w : nat) :
  size a = [n; c1; h; w] -> size b = [n; c2; h; w] ->
  exists y, cat a b 1 = Ok y
            /\ size y = [n; c1 + c2; h; w]
            /\ forall i ch r q,
                 data y [i; ch; r; q]
                 = if ch <? c1 then data a [i; ch; r; q]
                   else data b [i; ch - c1; r; q].
Proof.
  intros Ha Hb. unfold cat. rewrite Ha, Hb.
  cbn [length firstn skipn nth sizes_eqb Nat.ltb Nat.leb Nat.eqb app].
  rewrite !Nat.eqb_refl. cbn [andb].
  eexists; split; [reflexivity|]. split; reflexivity.
Qed.

(* ================================================================== *)
(** ** EdgeSRModel.forward *)

Lemma forward_steps_iff (self : EdgeSRModel) (lr lr_edges out : Tensor) :
  EdgeSRModel_forward self lr lr_edges = Ok out
  <-> exists lr_scaled lr_edges_scaled inputs edge_gen inputs',
        forward_steps self lr lr_edges lr_scaled lr_edges_scaled inputs edge_gen
          inputs' out.
Proof.
  unfold EdgeSRModel_forward, forward_steps. split.
  - intros H.
    apply rbind_Ok in H as (a & Ea & H). apply rbind_Ok in H as (b & Eb & H).
    apply rbind_Ok in H as (c & Ec & H). apply rbind_Ok in H as (d & Ed & H).
    apply rbind_Ok in H as (e & Ee & H). apply rbind_Ok in H as (o & Eo & H).
    injection H as <-. now exists a, b, c, d, e.
  - intros (a & b & c & d & e & Ea & Eb & Ec & Ed & Ee & Eo).
    rewrite Ea; cbn [rbind]. rewrite Eb; cbn [rbind]. rewrite Ec; cbn [rbind].
    rewrite Ed; cbn [rbind]. rewrite Ee; cbn [rbind]. rewrite Eo. reflexivity.
Qed.

Lemma generator_forward (m : nnModule) (k o n h w : nat) (x : Tensor)
    (G : nnModule -> nnModule -> nnModule -> nnModule) :
  G = SRGenerator \/ G = EdgeGenerator ->
  arch m = G encoder_arch (middle_arch k) (decoder_arch o) ->
  size x = [n; 4; 4 * h; 4 * w] ->
  0 < h -> 0 < w -> h * w <> 1 -> k = 0 \/ (3 <= h /\ 3 <= w) ->
  exists y, forward m x = Ok y /\ size y = [n; o; 4 * h; 4 * w].
Proof.
  intros HG Ha Hx Hh Hw Hhw Hk. apply forward_returns.
  rewrite <- arch_out_size, Ha, Hx. now apply generator_size.
Qed.

Lemma EdgeSRModel_forward_trace (k1 k2 : nat) (self : EdgeSRModel)
    (lr lr_edges : Tensor) (B H W : nat) :
  arch (edge_generator self) = EdgeGenerator_arch k1 ->
  arch (sr_generator self) = SRGenerator_arch k2 ->
  size lr = [B; 3; H; W] -> size lr_edges = [B; 1; H; W] ->
  3 <= H -> 3 <= W ->
  exists lr_scaled lr_edges_scaled inputs edge_gen inputs' out,
    forward_steps self lr lr_edges lr_scaled lr_edges_scaled inputs edge_gen
      inputs' out
    /\ steps_shape B H W lr lr_edges lr_scaled lr_edges_scaled inputs edge_gen
         inputs' out.
Proof.
  intros He Hs Hlr Hle HH HW.
  destruct (@interpolate_4d lr B 3 H W 4 Hlr) as (a & Ea & Sa & Da); try lia.
  destruct (@interpolate_4d lr_edges B 1 H W 4 Hle) as (b & Eb & Sb & Db); try lia.
  destruct (cat_channels a b Sa Sb) as (c & Ec & Sc & Dc).
  change (3 + 1) with 4 in Sc.
  destruct (@generator_forward (edge_generator self) k1 1 B H W c EdgeGenerator)
    as (d & Ed & Sd); auto; try lia; try nia.
  destruct (cat_channels a d Sa Sd) as (e & Ee & Se & De).
  change (3 + 1) with 4 in Se.
  destruct (@generator_forward (sr_generator self) k2 3 B H W e SRGenerator)
    as (o & Eo & So); auto; try lia; try nia.
  exists a, b, c, d, e, o. split.
  - repeat split; assumption.
  - repeat split; assumption.
Qed.

Lemma divisible_by_4 (n : nat) : 0 < n -> Nat.divide 4 n -> 3 <= n.
Proof. intros Hn [q ->]. lia. Qed.

(** C1.  A model built by [EdgeSRModel(use_spectral_norm)], run on an image
    of size (B, 3, H, W) and an edge map of size (B, 1, H, W) whose height
    and width are positive multiples of 4, returns a tensor of size
    (B, 3, 4H, 4W). *)
Theorem EdgeSRModel_forward_size (use_spectral_norm : bool) (g : rng) :
  exists self g',
    EdgeSRModel_init use_spectral_norm g = Ok (self, g')
    /\ forall (lr lr_edges : Tensor) (B H W : nat),
         size lr = [B; 3; H; W] -> size lr_edges = [B; 1; H; W] ->
         0 < H -> 0 < W -> Nat.divide 4 H -> Nat.divide 4 W ->
         exists out, EdgeSRModel_forward self lr lr_edges = Ok out
                     /\ size out = [B; 3; 4 * H; 4 * W].
Proof.
  destruct (EdgeSRModel_init_spec use_spectral_norm g) as (self & g' & E & He & Hs).
  exists self, g'. split; [exact E|].
  intros lr lr_edges B H W Hlr Hle HH HW DH DW.
  destruct (EdgeSRModel_forward_trace self lr lr_edges He Hs Hlr Hle)
    as (a & b & c & d & e & o & Hsteps & Hshape);
    try (apply divisible_by_4; assumption).
  exists o. split.
  - apply forward_steps_iff. now exists a, b, c, d, e.
  - apply Hshape.
Qed.

(** C2.  [EdgeSRModel.forward] returns a result exactly when the chain of
    steps does: nearest-neighbour upsampling of both inputs by 4,
    concatenation along the channel dimension, the edge generator,
    concatenation of the upsampled image (not the original) with the
    predicted edges, the image generator, whose output is the result.  On an
    image of size (B, 3, H, W) and an edge map of size (B, 1, H, W) with H, W
    positive multiples of 4 every step succeeds; the concatenations have 4
    channels, the predicted edge map 1 and the result 3. *)
Theorem EdgeSRModel_forward_data_flow (use_spectral_norm : bool) (g : rng) :
  exists self g',
    EdgeSRModel_init use_spectral_norm g = Ok (self, g')
    /\ (forall lr lr_edges out,
          EdgeSRModel_forward self lr lr_edges = Ok out
          <-> exists lr_scaled lr_edges_scaled inputs edge_gen inputs',
                forward_steps self lr lr_edges lr_scaled lr_edges_scaled inputs
                  edge_gen inputs' out)
    /\ forall (lr lr_edges : Tensor) (B H W : nat),
         size lr = [B; 3; H; W] -> size lr_edges = [B; 1; H; W] ->
         0 < H -> 0 < W -> Nat.divide 4 H -> Nat.divide 4 W ->
         exists lr_scaled lr_edges_scaled inputs edge_gen inputs' out,
           forward_steps self lr lr_edges lr_scaled lr_edges_scaled inputs
             edge_gen inputs' out
           /\ steps_shape B H W lr lr_edges lr_scaled lr_edges_scaled inputs
                edge_gen inputs' out
           /\ EdgeSRModel_forward self lr lr_edges = Ok out.
Proof.
  destruct (EdgeSRModel_init_spec use_spectral_norm g) as (self & g' & E & He & Hs).
  exists self, g'. split; [exact E|]. split; [apply forward_steps_iff|].
  intros lr lr_edges B H W Hlr Hle HH HW DH DW.
  destruct (EdgeSRModel_forward_trace self lr lr_edges He Hs Hlr Hle)
    as (a & b & c & d & e & o & Hsteps & Hshape);
    try (apply divisible_by_4; assumption).
  exists a, b, c, d, e, o. repeat split; try apply Hsteps; try apply Hshape.
  apply forward_steps_iff. now exists a, b, c, d, e.
Qed.

(* ================================================================== *)
(** ** The generators *)

Lemma conv_out_channels (c : Conv) (s s' : list nat) :
  Layer_out_size (Conv2d c) s = Ok s' ->
  exists n h w, s' = [n; out_channels c; h; w].
Proof.
  destruct s as [|n [|ch [|h [|w [|? ?]]]]]; simpl; try discriminate.
  destruct (ch =? in_channels c); [|discriminate].
  destruct (conv_extent h _ _ _ _) as [h'|]; [|discriminate].
  destruct (conv_extent w _ _ _ _) as [w'|]; [|discriminate].
  simpl. intros H; injection H as <-. now exists n, h', w'.
Qed.

Lemma decoder_out_channels (o : nat) (s s' : list nat) :
  out_size (decoder_arch o) s = Ok s' -> exists n h w, s' = [n; o; h; w].
Proof.
  change (out_size (decoder_arch o) s)
    with (run_seq out_size
            ([ Builtin (ConvTranspose2d (plain_conv 256 128 4 2 1 1));
               Builtin (InstanceNorm2d 128); Builtin (ReLU true);
               Builtin (ConvTranspose2d (plain_conv 128 64 4 2 1 1));
               Builtin (InstanceNorm2d 64); Builtin (ReLU true);
               Builtin (ReflectionPad2d 3) ]
             ++ [Builtin (Conv2d (plain_conv 64 o 7 1 0 1))]) s).
  rewrite run_seq_app. intros H.
  apply rbind_Ok in H as (s7 & _ & H).
  change (rbind (Layer_out_size (Conv2d (plain_conv 64 o 7 1 0 1)) s7) Ok = Ok s') in H.
  apply rbind_Ok in H as (s8 & H & E). injection E as <-.
  apply conv_out_channels in H. exact H.
Qed.

(** (tanh(r) + 1) / 2 on one entry, as float32 computes it. *)
Lemma tanh_unit_interval (a : float) :
  a <> NaN ->
  in_unit_interval (fdiv_scalar ar (fadd ar (ftanh ar a) (round ar 1)) 2).
Proof.
  intros Ha. rewrite round_1.
  assert (Hsum : exists v, fadd ar (ftanh ar a) (Finite 1) = Finite v
                           /\ (0 <= v <= 2)%R).
  { destruct a as [x| | |]; simpl; [| | |congruence].
    - eapply round_between; [apply round_0 | apply round_2|].
      pose proof (tanh32_range ar x). lra.
    - replace (1 + 1)%R with 2%R by lra. rewrite round_2.
      exists 2%R. split; [reflexivity | lra].
    - replace (-1 + 1)%R with 0%R by lra. rewrite round_0.
      exists 0%R. split; [reflexivity | lra]. }
  destruct Hsum as (v & -> & Hv). unfold fdiv_scalar.
  destruct (Req_dec_T 2 0) as [E|_]; [lra|].
  eapply round_between; [apply round_0 | apply round_1 | lra].
Qed.

(** C3.  Every [SRGenerator] the constructor returns is an encoder, a middle
    stage and a decoder.  Whenever its forward pass returns, the output has
    3 channels and each entry is (tanh(r) + 1) / 2, computed in float32, for
    the entry r of the raw decoder output at the same index.  The entry lies
    in the closed interval [0, 1] when r is a number or an infinity, and is
    NaN when r is NaN.  The forward pass does return on every input of size
    (B, 4, 4h, 4w) that leaves the encoder with more than one position and,
    when there are residual blocks, with at least 3 rows and columns. *)
Theorem SRGenerator_forward_range (scale residual_blocks : Z) (init_weights : bool)
    (g : rng) :
  exists e mi d g',
    SRGenerator_init scale residual_blocks init_weights g
    = Ok (SRGenerator e mi d, g')
    /\ (forall x out,
          forward (SRGenerator e mi d) x = Ok out ->
          exists raw,
            rbind (forward e x) (fun x1 => rbind (forward mi x1) (forward d)) = Ok raw
            /\ (exists B H W, size out = [B; 3; H; W])
            /\ size raw = size out
            /\ forall idx,
                 data out idx
                 = fdiv_scalar ar (fadd ar (ftanh ar (data raw idx)) (round ar 1)) 2
                 /\ (data raw idx <> NaN -> in_unit_interval (data out idx))
                 /\ (data raw idx = NaN -> data out idx = NaN))
    /\ forall (x : Tensor) (B h w : nat),
         size x = [B; 4; 4 * h; 4 * w] ->
         1 < h * w ->
         (residual_blocks <= 0)%Z \/ (3 <= h /\ 3 <= w) ->
         exists out, forward (SRGenerator e mi d) x = Ok out
                     /\ size out = [B; 3; 4 * h; 4 * w].
Proof.
  destruct (SRGenerator_init_spec scale residual_blocks init_weights g)
    as (m & g' & E & Ha).
  destruct (arch_SRGenerator_inv _ Ha) as (e & mi & d & -> & _ & _ & Hd).
  exists e, mi, d, g'. split; [exact E|]. split.
  - intros x out H. simpl in H.
    apply rbind_Ok in H as (x1 & E1 & H). apply rbind_Ok in H as (x2 & E2 & H).
    apply rbind_Ok in H as (x3 & E3 & H). injection H as <-.
    exists x3. split; [rewrite E1; cbn [rbind]; rewrite E2; exact E3|].
    split; [|split; [reflexivity|]].
    + apply forward_Ok_size in E3. rewrite <- arch_out_size, Hd in E3.
      apply decoder_out_channels in E3. exact E3.
    + intros idx. split; [reflexivity|]. split.
      * apply tanh_unit_interval.
      * simpl. intros ->. reflexivity.
  - intros x B h w Hx Hhw Hk.
    apply (@generator_forward _ (Z.to_nat residual_blocks) 3 B h w x SRGenerator);
      auto; nia.
Qed.

(** C8.  [EdgeGenerator(residual_blocks=0)] has an empty [Sequential] as
    its middle stage, which returns its input unchanged; on an input of size
    (B, 4, 4h, 4w) with more than one position after the encoder the forward
    pass returns the sigmoid of the decoder output, of size (B, 1, 4h, 4w). *)
Theorem EdgeGenerator_without_blocks (scale : Z) (use_spectral_norm init_weights : bool)
    (g : rng) :
  exists e d g',
    EdgeGenerator_init scale 0 use_spectral_norm init_weights g
    = Ok (EdgeGenerator e (Sequential []) d, g')
    /\ (forall x, forward (Sequential []) x = Ok x)
    /\ forall (x : Tensor) (B h w : nat),
         size x = [B; 4; 4 * h; 4 * w] -> 1 < h * w ->
         exists raw out,
           rbind (forward e x) (forward d) = Ok raw
           /\ forward (EdgeGenerator e (Sequential []) d) x = Ok out
           /\ size out = [B; 1; 4 * h; 4 * w]
           /\ forall idx, data out idx = sigmoid ar (data raw idx).
Proof.
  destruct (EdgeGenerator_init_spec scale 0 use_spectral_norm init_weights g)
    as (m & g' & E & Ha).
  destruct (arch_EdgeGenerator_inv _ Ha) as (e & mi & d & -> & He & Hmi & Hd).
  apply arch_Sequential_nil in Hmi. subst mi.
  exists e, d, g'. split; [exact E|]. split; [reflexivity|].
  intros x B h w Hx Hhw.
  destruct (@generator_forward (EdgeGenerator e (Sequential []) d) 0 1 B h w x
              EdgeGenerator) as (out & Eo & So); auto; try nia.
  pose proof Eo as H. simpl in H.
  apply rbind_Ok in H as (x1 & E1 & H). cbn [rbind] in H.
  apply rbind_Ok in H as (x3 & E3 & H). injection H as <-.
  exists x3, (torch_sigmoid ar x3). split; [rewrite E1; exact E3|].
  split; [exact Eo|]. split; [exact So|].
  intros idx. reflexivity.
Qed.

(** C9.  The [scale] argument of both generator constructors is unused:
    from the same generator state, two values of [scale] give the same
    module, hence the same forward results; and a model assembled from
    generators built with any two values of [scale] still upsamples its
    inputs by 4. *)
Theorem scale_is_unused (s1 s2 residual_blocks : Z)
    (use_spectral_norm init_weights : bool) (g : rng) :
  EdgeGenerator_init s1 residual_blocks use_spectral_norm init_weights g
  = EdgeGenerator_init s2 residual_blocks use_spectral_norm init_weights g
  /\ SRGenerator_init s1 residual_blocks init_weights g
     = SRGenerator_init s2 residual_blocks init_weights g
  /\ (forall m1 m2 g1 g2 x,
        EdgeGenerator_init s1 residual_blocks use_spectral_norm init_weights g
        = Ok (m1, g1) ->
        EdgeGenerator_init s2 residual_blocks use_spectral_norm init_weights g
        = Ok (m2, g2) ->
        forward m1 x = forward m2 x)
  /\ (forall m1 m2 g1 g2 x,
        SRGenerator_init s1 residual_blocks init_weights g = Ok (m1, g1) ->
        SRGenerator_init s2 residual_blocks init_weights g = Ok (m2, g2) ->
        forward m1 x = forward m2 x)
  /\ exists eg sg g1 g2,
       EdgeGenerator_init s1 residual_blocks use_spectral_norm init_weights g
       = Ok (eg, g1)
       /\ SRGenerator_init s2 residual_blocks init_weights g1 = Ok (sg, g2)
       /\ forall (lr lr_edges : Tensor) (B H W : nat),
            size lr = [B; 3; H; W] -> size lr_edges = [B; 1; H; W] ->
            0 < H -> 0 < W -> Nat.divide 4 H -> Nat.divide 4 W ->
            exists lr_scaled out,
              interpolate lr 4 = Ok lr_scaled
              /\ size lr_scaled = [B; 3; 4 * H; 4 * W]
              /\ EdgeSRModel_forward (mkEdgeSRModel eg sg) lr lr_edges = Ok out
              /\ size out = [B; 3; 4 * H; 4 * W].
Proof.
  split; [reflexivity|]. split; [reflexivity|].
  split; [|split].
  - intros m1 m2 g1 g2 x E1 E2.
    change (EdgeGenerator_init s2 residual_blocks use_spectral_norm init_weights g)
      with (EdgeGenerator_init s1 residual_blocks use_spectral_norm init_weights g)
      in E2.
    rewrite E1 in E2. now injection E2 as <- _.
  - intros m1 m2 g1 g2 x E1 E2.
    change (SRGenerator_init s2 residual_blocks init_weights g)
      with (SRGenerator_init s1 residual_blocks init_weights g) in E2.
    rewrite E1 in E2. now injection E2 as <- _.
  - destruct (EdgeGenerator_init_spec s1 residual_blocks use_spectral_norm
                init_weights g) as (eg & g1 & Eeg & Heg).
    destruct (SRGenerator_init_spec s2 residual_blocks init_weights g1)
      as (sg & g2 & Esg & Hsg).
    exists eg, sg, g1, g2. split; [exact Eeg|]. split; [exact Esg|].
    intros lr lr_edges B H W Hlr Hle HH HW DH DW.
    destruct (@EdgeSRModel_forward_trace _ _ (mkEdgeSRModel eg sg) lr lr_edges
                B H W Heg Hsg Hlr Hle)
      as (a & b & c & d & e & o & Hsteps & Hshape);
      try (apply divisible_by_4; assumption).
    exists a, o. split; [apply Hsteps|]. split; [apply Hshape|].
    split; [|apply Hshape].
    apply forward_steps_iff. now exists a, b, c, d, e.
Qed.

(* ================================================================== *)
(** ** ResnetBlock *)

Lemma built_block_size (dim dilation : nat) (c1 c2 : Conv) (b1 b2 sn1 sn2 : bool)
    (n h w : nat) :
  built_conv dim dim 3 1 0 dilation b1 sn1 c1 ->
  built_conv dim dim 3 1 0 1 b2 sn2 c2 ->
  1 <= dim -> 1 <= dilation -> dilation < h -> dilation < w ->
  out_size (conv_block_of dim dilation c1 c2) [n; dim; h; w] = Ok [n; dim; h; w].
Proof.
  intros (A1 & _) (A2 & _) Hdim Hd Hh Hw.
  rewrite <- arch_out_size. unfold conv_block_of.
  cbn [arch map Layer_arch]. rewrite A1, A2.
  now apply conv_block_size.
Qed.

(** C4.  For at least one channel, the block
    [ResnetBlock(dim, dilation, use_spectral_norm)] holds the stack pad,
    convolution, instance norm, ReLU, pad, convolution, instance norm:
    nothing follows the second convolution but the normalisation.  For
    dilation at least 1 and an input of size (B, dim, H, W) with H and W at
    least 2 dilation + 1, the stack returns some F(x), and the block returns
    a tensor of the size of x whose entries are the float32 sums of those of
    x and those of F(x). *)
Theorem ResnetBlock_forward_residual (dim dilation : nat) (use_spectral_norm : bool)
    (g : rng) :
  1 <= dim ->
  exists c1 c2 g',
    let conv_block :=
      Sequential
        [ Builtin (ReflectionPad2d dilation);
          Builtin (Conv2d c1);
          Builtin (InstanceNorm2d dim);
          Builtin (ReLU true);
          Builtin (ReflectionPad2d 1);
          Builtin (Conv2d c2);
          Builtin (InstanceNorm2d dim) ] in
    ResnetBlock_init dim dilation use_spectral_norm g
    = Ok (ResnetBlock conv_block, g')
    /\ forall (x : Tensor) (B H W : nat),
         1 <= dilation ->
         size x = [B; dim; H; W] ->
         2 * dilation + 1 <= H -> 2 * dilation + 1 <= W ->
         exists fx out,
           forward conv_block x = Ok fx
           /\ forward (ResnetBlock conv_block) x = Ok out
           /\ size out = size x
           /\ forall idx, data out idx = fadd ar (data x idx) (data fx idx).
Proof.
  intros Hdim.
  destruct (@ResnetBlock_init_spec dim dilation use_spectral_norm
              (fun _ => Hdim) g)
    as (m & g' & E & c1 & c2 & -> & H1 & H2).
  exists c1, c2, g'. split; [exact E|].
  intros x B H W Hd Hx HH HW.
  destruct (@forward_returns (conv_block_of dim dilation c1 c2) x [B; dim; H; W])
    as (fx & Efx & Sfx).
  { rewrite Hx. apply (built_block_size _ H1 H2); lia. }
  exists fx, (mkTensor (size x) (fun idx => fadd ar (data x idx) (data fx idx))).
  split; [exact Efx|]. split; [|split; reflexivity].
  change (rbind (forward (conv_block_of dim dilation c1 c2) x) (tensor_add ar x)
          = Ok (mkTensor (size x) (fun idx => fadd ar (data x idx) (data fx idx)))).
  rewrite Efx. cbn [rbind]. unfold tensor_add.
  now rewrite Sfx, Hx, sizes_eqb_refl.
Qed.

(** C5.  Both convolutions of [ResnetBlock(dim, dilation, use_spectral_norm)]
    have a bias exactly when [use_spectral_norm] is false, that is exactly
    when they are not wrapped in spectral normalisation.  The block is
    constructed for every [dim] without spectral normalisation, and for at
    least one channel with it. *)
Theorem ResnetBlock_bias_iff_no_spectral_norm (dim dilation : nat)
    (use_spectral_norm : bool) (g : rng) :
  (use_spectral_norm = true -> 1 <= dim) ->
  exists c1 c2 g',
    ResnetBlock_init dim dilation use_spectral_norm g
    = Ok (ResnetBlock
            (Sequential
               [ Builtin (ReflectionPad2d dilation);
                 Builtin (Conv2d c1);
                 Builtin (InstanceNorm2d dim);
                 Builtin (ReLU true);
                 Builtin (ReflectionPad2d 1);
                 Builtin (Conv2d c2);
                 Builtin (InstanceNorm2d dim) ]), g')
    /\ (Conv_bias c1 <> None <-> use_spectral_norm = false)
    /\ (Conv_bias c2 <> None <-> use_spectral_norm = false)
    /\ (Conv_bias c1 <> None <-> spectral c1 = None)
    /\ (Conv_bias c2 <> None <-> spectral c2 = None).
Proof.
  intros Hdim.
  destruct (@ResnetBlock_init_spec dim dilation use_spectral_norm Hdim g)
    as (m & g' & E & c1 & c2 & -> & (_ & B1 & S1) & (_ & B2 & S2)).
  exists c1, c2, g'. split; [exact E|].
  unfold has_bias, has_spectral, Conv_bias in *.
  destruct (bias_data c1), (bias_data c2), (spectral c1), (spectral c2),
    use_spectral_norm; simpl in *; try discriminate;
    repeat split; intros; congruence.
Qed.

(* ================================================================== *)
(** ** BaseNetwork.init_weights *)

Lemma init_weights_modules (m : nnModule) (t : string) (gain : R) :
  Forall (accepted t gain) (convs m) ->
  returns (init_weights m t gain)
    (fun m' => Forall2 (tree_rel (layer_init_rel t)) (modules m) (modules m')).
Proof.
  intros Hacc. eapply returns_weaken; [apply apply_init_func_spec, Hacc|].
  intros m'. apply tree_rel_modules.
Qed.

Lemma Conv_arch_eq (c c' : Conv) :
  Conv_arch c' = Conv_arch c ->
  in_channels c' = in_channels c /\ out_channels c' = out_channels c
  /\ kernel_size c' = kernel_size c.
Proof.
  unfold Conv_arch, plain_conv. intros H.
  injection H as Hi Ho Hk _ _ _. now repeat split.
Qed.

Section init_node.
Variable t : string.
Variables n n' : nnModule.
Hypothesis Hrel : tree_rel (layer_init_rel t) n n'.

Lemma init_node_class : class_name n' = class_name n.
Proof.
  inversion Hrel as [l l' Hl| | | |]; subst; try reflexivity.
  destruct l; simpl in Hl; subst; try reflexivity;
    destruct Hl as (c' & -> & _); reflexivity.
Qed.

Lemma init_node_weight_size (w : Tensor) :
  weight_attr n = AttrTensor w ->
  exists w', weight_attr n' = AttrTensor w' /\ size w' = size w.
Proof.
  inversion Hrel as [l l' Hl| | | |]; subst; simpl; try discriminate.
  destruct l; simpl in *; try discriminate;
    destruct Hl as (c' & -> & Ha & _);
    apply Conv_arch_eq in Ha as (Hi & Ho & Hk);
    intros E; injection E as <-; eexists; (split; [reflexivity|]);
    simpl; now rewrite Hi, Ho, Hk.
Qed.

Lemma init_node_weight_kept :
  ~ In t policies -> weight_attr n' = weight_attr n.
Proof.
  intros Hn.
  inversion Hrel as [l l' Hl| | | |]; subst; simpl; try reflexivity.
  destruct l; simpl in *; subst; try reflexivity;
    destruct Hl as (c' & -> & Ha & _ & _ & Hw);
    apply Conv_arch_eq in Ha as (Hi & Ho & Hk);
    unfold Conv2d_weight, ConvTranspose2d_weight;
    now rewrite Hi, Ho, Hk, (Hw Hn).
Qed.

Lemma init_node_bias_zero (b : Tensor) :
  bias_attr n = AttrTensor b ->
  exists b', bias_attr n' = AttrTensor b' /\ size b' = size b
             /\ forall idx, data b' idx = Finite 0.
Proof.
  inversion Hrel as [l l' Hl| | | |]; subst; simpl; try discriminate.
  destruct l; simpl in *; try discriminate;
    destruct Hl as (c' & -> & Ha & _ & Hb & _);
    apply Conv_arch_eq in Ha as (_ & Ho & _);
    unfold Conv_bias in *; rewrite Hb;
    destruct (bias_data c) as [bd|]; simpl; try discriminate;
    intros E; injection E as <-; eexists; (split; [reflexivity|]);
    simpl; now rewrite Ho.
Qed.
End init_node.

(** C6.  For each of the policies 'normal', 'xavier', 'kaiming' and
    'orthogonal' and every gain the initialiser of the policy accepts for
    the convolutions of the tree (not negative under 'normal' and 'xavier',
    whose fans must not add up to zero), [init_weights] returns a tree with
    the same modules in which every weight tensor has kept its size and
    every module whose class name contains 'Conv' or 'Linear' and that has a
    bias has an all-zero bias of the same size. *)
Theorem init_weights_zeroes_biases (m : nnModule) (init_type : string) (gain : R)
    (g : rng) :
  In init_type policies ->
  Forall (accepted init_type gain) (convs m) ->
  exists m' g',
    init_weights m init_type gain g = Ok (m', g')
    /\ Forall2
         (fun l l' =>
            class_name l' = class_name l
            /\ (forall w, weight_attr l = AttrTensor w ->
                  exists w', weight_attr l' = AttrTensor w' /\ size w' = size w)
            /\ ((find (class_name l) "Conv" <> -1
                 \/ find (class_name l) "Linear" <> -1)%Z ->
                forall b, bias_attr l = AttrTensor b ->
                  exists b', bias_attr l' = AttrTensor b'
                             /\ size b' = size b
                             /\ forall idx, data b' idx = Finite 0))
         (modules m) (modules m').
Proof.
  intros _ Hacc.
  destruct (@init_weights_modules m init_type gain Hacc g)
    as (m' & g' & E & H).
  exists m', g'. split; [exact E|].
  eapply Forall2_impl; [|exact H]. intros l l' Hl. split; [|split].
  - apply (init_node_class Hl).
  - apply (init_node_weight_size Hl).
  - intros _. apply (init_node_bias_zero Hl).
Qed.

(** C7.  With an [init_type] that is none of the four policy names,
    [init_weights] returns normally and every module keeps its weight
    attribute as it was: the same tensor where there is one. *)
Theorem init_weights_unknown_policy_keeps_weights (m : nnModule) (init_type : string)
    (gain : R) (g : rng) :
  ~ In init_type policies ->
  exists m' g',
    init_weights m init_type gain g = Ok (m', g')
    /\ Forall2
         (fun l l' =>
            class_name l' = class_name l /\ weight_attr l' = weight_attr l)
         (modules m) (modules m').
Proof.
  intros Hn.
  destruct (@init_weights_modules m init_type gain
              (unknown_accepted_all gain m Hn) g)
    as (m' & g' & E & H).
  exists m', g'. split; [exact E|].
  eapply Forall2_impl; [|exact H]. intros l l' Hl. split.
  - apply (init_node_class Hl).
  - apply (init_node_weight_kept Hl Hn).
Qed.

(** C10.  With an [init_type] that is none of the four policy names, the
    bias of every module whose class name contains 'Conv' or 'Linear' and
    that has a bias is still set to zero. *)
Theorem init_weights_unknown_policy_zeroes_biases (m : nnModule) (init_type : string)
    (gain : R) (g : rng) :
  ~ In init_type policies ->
  exists m' g',
    init_weights m init_type gain g = Ok (m', g')
    /\ Forall2
         (fun l l' =>
            class_name l' = class_name l
            /\ ((find (class_name l) "Conv" <> -1
                 \/ find (class_name l) "Linear" <> -1)%Z ->
                forall b, bias_attr l = AttrTensor b ->
                  exists b', bias_attr l' = AttrTensor b'
                             /\ size b' = size b
                             /\ forall idx, data b' idx = Finite 0))
         (modules m) (modules m').
Proof.
  intros Hn.
  destruct (@init_weights_modules m init_type gain
              (unknown_accepted_all gain m Hn) g)
    as (m' & g' & E & H).
  exists m', g'. split; [exact E|].
  eapply Forall2_impl; [|exact H]. intros l l' Hl. split.
  - apply (init_node_class Hl).
  - intros _. apply (init_node_bias_zero Hl).
Qed.

(* ================================================================== *)
(** ** What the constructors assemble *)

Lemma SRGenerator_init_full (scale residual_blocks : Z) (iw : bool) :
  returns (SRGenerator_init scale residual_blocks iw)
    (fun m => exists self,
                built_generator SRGenerator (Z.to_nat residual_blocks) false 3 self
                /\ initialised iw self m).
Proof.
  unfold SRGenerator_init.
  eapply returns_bind; [apply plain_Conv2d_spec|]. intros e1 (c1 & -> & H1).
  eapply returns_bind; [apply plain_Conv2d_spec|]. intros e2 (c2 & -> & H2).
  eapply returns_bind; [apply plain_Conv2d_spec|]. intros e3 (c3 & -> & H3).
  eapply returns_bind; [apply build_blocks_spec, ResnetBlock_init_spec; intros _; lia|].
  intros blocks (Hlen & Hbs).
  eapply returns_bind; [apply plain_ConvTranspose2d_spec|].
  intros d1 (c4 & -> & H4).
  eapply returns_bind; [apply plain_ConvTranspose2d_spec|].
  intros d2 (c5 & -> & H5).
  eapply returns_bind; [apply plain_Conv2d_spec|]. intros d3 (c6 & -> & H6).
  cbv zeta.
  match goal with
  | |- returns (if iw then init_weights_default ?s else ret ?s) _ =>
      assert (Hself : built_generator SRGenerator (Z.to_nat residual_blocks)
                        false 3 s)
  end.
  { eexists _, _, _. split; [reflexivity|]. split; [|split].
    - now exists c1, c2, c3.
    - now exists blocks.
    - now exists c4, c5, c6. }
  destruct iw.
  - eapply returns_weaken; [apply apply_init_func_spec, default_accepted_all|].
    intros m' Hm'. eexists. split; [exact Hself | exact Hm'].
  - apply returns_ret. eexists. split; [exact Hself | reflexivity].
Qed.

Lemma EdgeGenerator_init_full (scale residual_blocks : Z) (sn iw : bool) :
  returns (EdgeGenerator_init scale residual_blocks sn iw)
    (fun m => exists self,
                built_generator EdgeGenerator (Z.to_nat residual_blocks) sn 1 self
                /\ initialised iw self m).
Proof.
  unfold EdgeGenerator_init.
  eapply returns_bind; [apply Conv2d_spec; intros _; lia|]. intros e1 (c1 & -> & H1).
  eapply returns_bind; [apply Conv2d_spec; intros _; lia|]. intros e2 (c2 & -> & H2).
  eapply returns_bind; [apply Conv2d_spec; intros _; lia|]. intros e3 (c3 & -> & H3).
  eapply returns_bind; [apply build_blocks_spec, ResnetBlock_init_spec; intros _; lia|].
  intros blocks (Hlen & Hbs).
  eapply returns_bind; [apply ConvTranspose2d_spec; intros _; lia|].
  intros d1 (c4 & -> & H4).
  eapply returns_bind; [apply ConvTranspose2d_spec; intros _; lia|].
  intros d2 (c5 & -> & H5).
  eapply returns_bind; [apply plain_Conv2d_spec|]. intros d3 (c6 & -> & H6).
  cbv zeta.
  match goal with
  | |- returns (if iw then init_weights_default ?s else ret ?s) _ =>
      assert (Hself : built_generator EdgeGenerator (Z.to_nat residual_blocks)
                        sn 1 s)
  end.
  { eexists _, _, _. split; [reflexivity|]. split; [|split].
    - now exists c1, c2, c3.
    - now exists blocks.
    - now exists c4, c5, c6. }
  destruct iw.
  - eapply returns_weaken; [apply apply_init_func_spec, default_accepted_all|].
    intros m' Hm'. eexists. split; [exact Hself | exact Hm'].
  - apply returns_ret. eexists. split; [exact Hself | reflexivity].
Qed.

Lemma built_conv_flags (i o k s p d : nat) (b sn : bool) (c : Conv) :
  built_conv i o k s p d b sn c -> conv_flags c = (b, sn).
Proof. intros (_ & Hb & Hs). unfold conv_flags. now rewrite Hb, Hs. Qed.

Lemma built_blocks_flags (n : nat) (sn : bool) (bs : list nnModule) :
  length bs = n -> Forall (built_block 256 2 sn) bs ->
  map conv_flags (flat_map convs bs)
  = concat (repeat [(negb sn, sn); (negb sn, sn)] n).
Proof.
  intros <- H. induction H as [|b bs Hb _ IH]; [reflexivity|].
  destruct Hb as (c1 & c2 & -> & H1 & H2).
  cbn [flat_map length repeat concat]. rewrite map_app, IH.
  cbn [convs conv_block_of flat_map app map].
  now rewrite (built_conv_flags H1), (built_conv_flags H2).
Qed.

Lemma built_generator_flags (G : nnModule -> nnModule -> nnModule -> nnModule)
    (n : nat) (sn : bool) (o : nat) (self : nnModule) :
  G = SRGenerator \/ G = EdgeGenerator ->
  built_generator G n sn o self ->
  map conv_flags (convs self)
  = [(true, sn); (true, sn); (true, sn)]
    ++ concat (repeat [(negb sn, sn); (negb sn, sn)] n)
    ++ [(true, sn); (true, sn); (true, false)].
Proof.
  intros HG (e & mi & d & -> & (c1 & c2 & c3 & -> & H1 & H2 & H3)
             & (bs & -> & Hlen & Hbs) & (c4 & c5 & c6 & -> & H4 & H5 & H6)).
  assert (E : forall a b c, convs (G a b c) = convs a ++ convs b ++ convs c)
    by (destruct HG as [->| ->]; reflexivity).
  rewrite E, !map_app.
  change (convs (Sequential bs)) with (flat_map convs bs).
  rewrite (built_blocks_flags Hlen Hbs).
  cbn [convs flat_map app map].
  now rewrite (built_conv_flags H1), (built_conv_flags H2), (built_conv_flags H3),
    (built_conv_flags H4), (built_conv_flags H5), (built_conv_flags H6).
Qed.

(** *** What [init_weights] keeps and sets on the convolutions *)

Lemma conv_init_rel_flags (t : string) (c c' : Conv) :
  conv_init_rel t c c' -> conv_flags c' = conv_flags c.
Proof.
  intros (_ & Hs & Hb & _). unfold conv_flags, has_bias, has_spectral.
  rewrite Hs, Hb. now destruct (bias_data c).
Qed.

Lemma conv_init_rel_zero (t : string) (c c' : Conv) :
  conv_init_rel t c c' ->
  forall b, Conv_bias c' = Some b -> forall idx, data b idx = Finite 0.
Proof.
  intros (_ & _ & Hb & _) b. unfold Conv_bias. rewrite Hb.
  destruct (bias_data c); simpl; [|discriminate].
  intros E; injection E as <-. reflexivity.
Qed.

Lemma tree_rel_convs (t : string) (m : nnModule) :
  forall m', tree_rel (layer_init_rel t) m m' ->
             Forall2 (conv_init_rel t) (convs m) (convs m').
Proof.
  induction m as [l|ms IH|cb IH|e mi d IHe IHmi IHd|e mi d IHe IHmi IHd]
    using nnModule_tree_ind; intros m' H; inversion H; subst.
  - destruct l; simpl in *; subst; try solve [constructor];
      match goal with
      | Hl : exists _, _ /\ _ |- _ => destruct Hl as (c' & -> & Hc)
      end; (constructor; [exact Hc | constructor]).
  - match goal with F : Forall2 _ ms _ |- _ => rename F into HF end.
    clear H. simpl.
    induction HF as [|c c' ms ms' Hc _ IHF]; simpl; [constructor|].
    inversion IH; subst. apply Forall2_app; auto.
  - simpl. auto.
  - simpl. repeat (apply Forall2_app; auto).
  - simpl. repeat (apply Forall2_app; auto).
Qed.

Lemma Forall2_map_eq {A B} (R : A -> A -> Prop) (f : A -> B) (l l' : list A) :
  (forall a a', R a a' -> f a' = f a) -> Forall2 R l l' -> map f l' = map f l.
Proof.
  intros Hf H. induction H as [|a a' l l' Ha _ IH]; simpl; [reflexivity|].
  now rewrite (Hf _ _ Ha), IH.
Qed.

Lemma Forall2_right {A} (R : A -> A -> Prop) (P : A -> Prop) (l l' : list A) :
  (forall a a', R a a' -> P a') -> Forall2 R l l' -> Forall P l'.
Proof.
  intros HP H. induction H as [|a a' l l' Ha _ IH]; constructor; eauto.
Qed.

Lemma initialised_flags (iw : bool) (self m : nnModule) :
  initialised iw self m -> map conv_flags (convs m) = map conv_flags (convs self).
Proof.
  destruct iw; simpl; [|now intros ->].
  intros H. apply tree_rel_convs in H.
  eapply Forall2_map_eq; [|exact H]. intros a a'. apply conv_init_rel_flags.
Qed.

(** X1.  [EdgeGenerator(scale, residual_blocks, use_spectral_norm,
    init_weights)]: the three encoder convolutions and the first two
    decoder convolutions have a bias and are spectrally normalised exactly
    when [use_spectral_norm]; the two convolutions of each of the
    max(0, residual_blocks) blocks have a bias exactly when not
    [use_spectral_norm]; the last convolution has a bias and is never
    normalised. *)
Theorem EdgeGenerator_conv_profile (scale residual_blocks : Z)
    (use_spectral_norm init_weights : bool) (g : rng) :
  exists m g',
    EdgeGenerator_init scale residual_blocks use_spectral_norm init_weights g
    = Ok (m, g')
    /\ map conv_flags (convs m)
       = [(true, use_spectral_norm); (true, use_spectral_norm);
          (true, use_spectral_norm)]
         ++ concat (repeat [(negb use_spectral_norm, use_spectral_norm);
                            (negb use_spectral_norm, use_spectral_norm)]
                      (Z.to_nat residual_blocks))
         ++ [(true, use_spectral_norm); (true, use_spectral_norm); (true, false)].
Proof.
  destruct (EdgeGenerator_init_full scale residual_blocks use_spectral_norm
              init_weights g) as (m & g' & E & self & Hself & Hm).
  exists m, g'. split; [exact E|].
  rewrite (initialised_flags _ _ _ Hm).
  apply (built_generator_flags (G := EdgeGenerator) (or_intror eq_refl) Hself).
Qed.

Lemma concat_repeat_pair {A} (x : A) (n : nat) :
  concat (repeat [x; x] n) = repeat x (2 * n).
Proof.
  induction n as [|n IH]; [reflexivity|].
  replace (2 * S n) with (S (S (2 * n))) by lia.
  simpl repeat at 1. simpl concat. now rewrite IH.
Qed.

(** X2.  [SRGenerator(scale, residual_blocks, init_weights)]: each of its
    6 + 2 max(0, residual_blocks) convolutions has a bias and none is
    spectrally normalised. *)
Theorem SRGenerator_conv_profile (scale residual_blocks : Z) (init_weights : bool)
    (g : rng) :
  exists m g',
    SRGenerator_init scale residual_blocks init_weights g = Ok (m, g')
    /\ length (convs m) = 6 + 2 * Z.to_nat residual_blocks
    /\ Forall (fun c => conv_flags c = (true, false)) (convs m).
Proof.
  destruct (SRGenerator_init_full scale residual_blocks init_weights g)
    as (m & g' & E & self & Hself & Hm).
  exists m, g'. split; [exact E|].
  assert (Hf : map conv_flags (convs m)
               = repeat (true, false) (6 + 2 * Z.to_nat residual_blocks)).
  { rewrite (initialised_flags _ _ _ Hm).
    rewrite (built_generator_flags (G := SRGenerator) (or_introl eq_refl) Hself).
    rewrite concat_repeat_pair.
    change [(true, false); (true, false); (true, false)]
      with (repeat (true, false) 3).
    rewrite <- !repeat_app. f_equal. lia. }
  split.
  - rewrite <- (length_map conv_flags), Hf. apply repeat_length.
  - apply Forall_forall. intros c Hc.
    apply (in_map conv_flags) in Hc. rewrite Hf in Hc.
    now apply repeat_spec in Hc.
Qed.

(** X3.  A generator built with [init_weights=True] starts with all-zero
    biases on every convolution; [EdgeSRModel] builds both of its generators
    that way. *)
Theorem constructed_biases_are_zero (scale residual_blocks : Z)
    (use_spectral_norm : bool) (g : rng) :
  (exists m g',
     SRGenerator_init scale residual_blocks true g = Ok (m, g')
     /\ Forall (fun c => forall b, Conv_bias c = Some b ->
                                   forall idx, data b idx = Finite 0) (convs m))
  /\ (exists m g',
        EdgeGenerator_init scale residual_blocks use_spectral_norm true g
        = Ok (m, g')
        /\ Forall (fun c => forall b, Conv_bias c = Some b ->
                                      forall idx, data b idx = Finite 0) (convs m))
  /\ exists self g',
       EdgeSRModel_init use_spectral_norm g = Ok (self, g')
       /\ Forall (fun c => forall b, Conv_bias c = Some b ->
                                     forall idx, data b idx = Finite 0)
            (convs (edge_generator self) ++ convs (sr_generator self)).
Proof.
  assert (HS : forall s rb,
             returns (SRGenerator_init s rb true)
               (fun m => Forall (fun c => forall b, Conv_bias c = Some b ->
                                   forall idx, data b idx = Finite 0) (convs m))).
  { intros s rb. eapply returns_weaken; [apply SRGenerator_init_full|].
    intros m (self & _ & Hm). simpl in Hm. apply tree_rel_convs in Hm.
    eapply Forall2_right; [|exact Hm]. intros a a'. apply conv_init_rel_zero. }
  assert (HE : forall s rb sn,
             returns (EdgeGenerator_init s rb sn true)
               (fun m => Forall (fun c => forall b, Conv_bias c = Some b ->
                                   forall idx, data b idx = Finite 0) (convs m))).
  { intros s rb sn. eapply returns_weaken; [apply EdgeGenerator_init_full|].
    intros m (self & _ & Hm). simpl in Hm. apply tree_rel_convs in Hm.
    eapply Forall2_right; [|exact Hm]. intros a a'. apply conv_init_rel_zero. }
  split; [apply HS|]. split; [apply HE|].
  unfold EdgeSRModel_init.
  destruct (HE 4%Z 8%Z use_spectral_norm g) as (eg & g1 & Eeg & Heg).
  destruct (HS 4%Z 8%Z g1) as (sg & g2 & Esg & Hsg).
  exists (mkEdgeSRModel eg sg), g2. split.
  - unfold bind. rewrite Eeg, Esg. reflexivity.
  - apply Forall_app. now split.
Qed.

(* ================================================================== *)
(** ** More on BaseNetwork.init_weights *)

(** X4.  Whatever the policy name, for a gain that the initialiser of the
    policy accepts for the convolutions of the tree (not negative under
    'normal' and 'xavier', whose fans must not add up to zero), [init_weights]
    returns a tree of the same architecture, with the same bias and
    spectral-norm pattern: a forward pass returns a tensor of the same size,
    or raises, exactly as before the initialisation. *)
Theorem init_weights_preserves_forward_sizes (m : nnModule) (init_type : string)
    (gain : R) (g : rng) :
  Forall (accepted init_type gain) (convs m) ->
  exists m' g',
    init_weights m init_type gain g = Ok (m', g')
    /\ arch m' = arch m
    /\ map conv_flags (convs m') = map conv_flags (convs m)
    /\ forall x, rmap size (forward m' x) = rmap size (forward m x).
Proof.
  intros Hacc.
  destruct (@apply_init_func_spec init_type gain m Hacc g) as (m' & g' & E & H).
  exists m', g'. split; [exact E|].
  assert (Ha : arch m' = arch m)
    by (apply (tree_rel_arch (@layer_init_rel_arch init_type) H)).
  split; [exact Ha|]. split.
  - apply tree_rel_convs in H.
    eapply Forall2_map_eq; [|exact H]. intros a a'. apply conv_init_rel_flags.
  - intros x. rewrite !forward_size, <- (arch_out_size m'), Ha.
    apply arch_out_size.
Qed.

Lemma keeps_state_ret {A} (a : A) (Q : A -> Prop) : Q a -> keeps_state (ret a) Q.
Proof. intros H g. now exists a. Qed.

Lemma keeps_state_bind {A B} (c : M A) (k : A -> M B) (P : A -> Prop)
    (Q : B -> Prop) :
  keeps_state c P -> (forall a, P a -> keeps_state (k a) Q) ->
  keeps_state (bind c k) Q.
Proof.
  intros Hc Hk g. destruct (Hc g) as (a & E & Ha).
  destruct (Hk a Ha g) as (b & E2 & Hb).
  exists b. unfold bind. rewrite E. now split.
Qed.

Lemma keeps_state_mapM {A B} (f : A -> M B) (l : list A) :
  Forall (fun a => keeps_state (f a) (fun _ => True)) l ->
  keeps_state (mapM f l) (fun _ => True).
Proof.
  induction 1 as [|a l Ha _ IH]; simpl.
  - now apply keeps_state_ret.
  - eapply keeps_state_bind; [exact Ha|]. intros b _.
    eapply keeps_state_bind; [exact IH|]. intros bs _.
    now apply keeps_state_ret.
Qed.

Lemma init_func_unknown_keeps_state (t : string) (gain : R) (m : nnModule) :
  ~ In t policies -> keeps_state (init_func t gain m) (fun _ => True).
Proof.
  intros Hn.
  assert (E1 : (t =? "normal")%string = false)
    by (apply String.eqb_neq; intros ->; apply Hn; simpl; tauto).
  assert (E2 : (t =? "xavier")%string = false)
    by (apply String.eqb_neq; intros ->; apply Hn; simpl; tauto).
  assert (E3 : (t =? "kaiming")%string = false)
    by (apply String.eqb_neq; intros ->; apply Hn; simpl; tauto).
  assert (E4 : (t =? "orthogonal")%string = false)
    by (apply String.eqb_neq; intros ->; apply Hn; simpl; tauto).
  destruct m as [l|ms|cb|e mi d|e mi d];
    try (now apply keeps_state_ret).
  destruct l as [p|c|c|n|b]; try (now apply keeps_state_ret).
  - unfold init_func.
    change (class_name (Builtin (Conv2d c))) with "Conv2d"%string.
    change (hasattr (weight_attr (Builtin (Conv2d c)))
            && (negb (find "Conv2d" "Conv" =? -1)%Z
                || negb (find "Conv2d" "Linear" =? -1)%Z)) with true.
    cbv iota. rewrite E1, E2, E3, E4.
    eapply keeps_state_bind with (P := fun m1 => m1 = Builtin (Conv2d c));
      [now apply keeps_state_ret|]. intros m1 ->.
    unfold on_bias_data. simpl. unfold Conv_bias.
    destruct (bias_data c); simpl; now apply keeps_state_ret.
  - unfold init_func.
    change (class_name (Builtin (ConvTranspose2d c))) with "ConvTranspose2d"%string.
    change (hasattr (weight_attr (Builtin (ConvTranspose2d c)))
            && (negb (find "ConvTranspose2d" "Conv" =? -1)%Z
                || negb (find "ConvTranspose2d" "Linear" =? -1)%Z)) with true.
    cbv iota. rewrite E1, E2, E3, E4.
    eapply keeps_state_bind with (P := fun m1 => m1 = Builtin (ConvTranspose2d c));
      [now apply keeps_state_ret|]. intros m1 ->.
    unfold on_bias_data. simpl. unfold Conv_bias.
    destruct (bias_data c); simpl; now apply keeps_state_ret.
Qed.

Lemma apply_unknown_keeps_state (t : string) (gain : R) (m : nnModule) :
  ~ In t policies -> keeps_state (apply (init_func t gain) m) (fun _ => True).
Proof.
  intros Hn.
  induction m as [l|ms IH|cb IH|e mi d IHe IHmi IHd|e mi d IHe IHmi IHd]
    using nnModule_tree_ind; simpl.
  - now apply init_func_unknown_keeps_state.
  - eapply keeps_state_bind; [apply (keeps_state_mapM _ IH)|].
    intros ms' _. now apply keeps_state_ret.
  - eapply keeps_state_bind; [exact IH|].
    intros cb' _. now apply keeps_state_ret.
  - eapply keeps_state_bind; [exact IHe|]. intros e' _.
    eapply keeps_state_bind; [exact IHmi|]. intros mi' _.
    eapply keeps_state_bind; [exact IHd|]. intros d' _.
    now apply keeps_state_ret.
  - eapply keeps_state_bind; [exact IHe|]. intros e' _.
    eapply keeps_state_bind; [exact IHmi|]. intros mi' _.
    eapply keeps_state_bind; [exact IHd|]. intros d' _.
    now apply keeps_state_ret.
Qed.

(** X5.  With an [init_type] that is none of the four policy names,
    [init_weights] draws no random number: it returns the generator state
    it was given. *)
Theorem init_weights_unknown_policy_draws_nothing (m : nnModule)
    (init_type : string) (gain : R) (g : rng) :
  ~ In init_type policies ->
  exists m', init_weights m init_type gain g = Ok (m', g).
Proof.
  intros Hn.
  destruct (apply_unknown_keeps_state gain m Hn g) as (m' & E & _).
  now exists m'.
Qed.

Lemma mapM_ext {A B} (f f' : A -> M B) (l : list A) :
  Forall (fun a => forall g, f a g = f' a g) l ->
  forall g, mapM f l g = mapM f' l g.
Proof.
  induction 1 as [|a l Ha _ IH]; intros g; simpl; [reflexivity|].
  unfold bind. rewrite Ha. destruct (f' a g) as [[b g1]|]; [|reflexivity].
  now rewrite IH.
Qed.

Lemma apply_ext (f f' : nnModule -> M nnModule) :
  (forall m g, f m g = f' m g) -> forall m g, apply f m g = apply f' m g.
Proof.
  intros Hf m.
  induction m as [l|ms IH|cb IH|e mi d IHe IHmi IHd|e mi d IHe IHmi IHd]
    using nnModule_tree_ind; intros g; simpl.
  - apply Hf.
  - unfold bind. rewrite (mapM_ext _ _ IH).
    destruct (mapM (apply f') ms g) as [[ms' g1]|]; [apply Hf | reflexivity].
  - unfold bind. rewrite IH.
    destruct (apply f' cb g) as [[cb' g1]|]; [apply Hf | reflexivity].
  - unfold bind. rewrite IHe.
    destruct (apply f' e g) as [[e' g1]|]; [|reflexivity]. rewrite IHmi.
    destruct (apply f' mi g1) as [[mi' g2]|]; [|reflexivity]. rewrite IHd.
    destruct (apply f' d g2) as [[d' g3]|]; [apply Hf | reflexivity].
  - unfold bind. rewrite IHe.
    destruct (apply f' e g) as [[e' g1]|]; [|reflexivity]. rewrite IHmi.
    destruct (apply f' mi g1) as [[mi' g2]|]; [|reflexivity]. rewrite IHd.
    destruct (apply f' d g2) as [[d' g3]|]; [apply Hf | reflexivity].
Qed.

(** X6.  The 'kaiming' policy ignores the gain: from the same generator
    state, two gains give the same initialised tree and the same final
    state. *)
Theorem init_weights_kaiming_ignores_gain (m : nnModule) (gain1 gain2 : R) (g : rng) :
  init_weights m "kaiming" gain1 g = init_weights m "kaiming" gain2 g.
Proof.
  unfold init_weights. apply apply_ext. clear m g.
  intros [l|ms|cb|e mi d|e mi d] g; try reflexivity.
  destruct l; reflexivity.
Qed.

Lemma apply_init_func_rel (t : string) (gain : R) (P : Conv -> Prop)
    (R : Layer -> Layer -> Prop) :
  (forall l, Forall P (convs (Builtin l)) ->
             returns (init_func t gain (Builtin l))
               (fun m' => exists l', m' = Builtin l' /\ R l l')) ->
  forall m, Forall P (convs m) ->
            returns (apply (init_func t gain) m) (tree_rel R m).
Proof.
  intros HR m.
  induction m as [l|ms IH|cb IH|e mi d IHe IHmi IHd|e mi d IHe IHmi IHd]
    using nnModule_tree_ind; intros Hacc; simpl.
  - eapply returns_weaken; [apply HR, Hacc|].
    intros m' (l' & -> & Hl). now constructor.
  - simpl in Hacc. apply Forall_flat_map_convs in Hacc.
    eapply returns_bind;
      [apply (returns_mapM _ _ (@Forall_modus_ponens _ _ _ _ IH Hacc))|].
    intros ms' Hms. apply returns_ret. now constructor.
  - eapply returns_bind; [exact (IH Hacc)|].
    intros cb' Hcb. apply returns_ret. now constructor.
  - simpl in Hacc. apply Forall_app in Hacc as [He Hacc].
    apply Forall_app in Hacc as [Hmi Hd].
    eapply returns_bind; [exact (IHe He)|]. intros e' He'.
    eapply returns_bind; [exact (IHmi Hmi)|]. intros mi' Hmi'.
    eapply returns_bind; [exact (IHd Hd)|]. intros d' Hd'.
    apply returns_ret. now constructor.
  - simpl in Hacc. apply Forall_app in Hacc as [He Hacc].
    apply Forall_app in Hacc as [Hmi Hd].
    eapply returns_bind; [exact (IHe He)|]. intros e' He'.
    eapply returns_bind; [exact (IHmi Hmi)|]. intros mi' Hmi'.
    eapply returns_bind; [exact (IHd Hd)|]. intros d' Hd'.
    apply returns_ret. now constructor.
Qed.

Lemma normal__drawn (t : Tensor) (mean std : R) :
  (0 <= std)%R -> returns (normal_ t mean std) (drawn (Normal mean std) t).
Proof.
  intros H g. unfold normal_. destruct (Rlt_dec std 0) as [N|_]; [lra|].
  unfold bind, draw_data, ret.
  destruct (draw (Normal mean std) (size t) g) as [v g1] eqn:Ed.
  exists (mkTensor (size t) v), g1. split; [reflexivity|].
  exists g. now rewrite Ed.
Qed.

Lemma xavier_normal__drawn (t : Tensor) (gain : R) (d0 d1 : nat) (rest : list nat) :
  size t = d0 :: d1 :: rest ->
  0 < d1 * fold_right Nat.mul 1 rest + d0 * fold_right Nat.mul 1 rest ->
  (0 <= gain)%R ->
  returns (xavier_normal_ t gain)
    (drawn (Normal 0 (gain * sqrt (2 / INR (d1 * fold_right Nat.mul 1 rest
                                             + d0 * fold_right Nat.mul 1 rest))))
       t).
Proof.
  intros Es Hf Hg. unfold xavier_normal_.
  eapply returns_lift_Ok;
    [unfold fan_in_and_fan_out; rewrite Es; reflexivity|].
  cbn [fst snd]. destruct (Nat.eqb_spec
    (d1 * fold_right Nat.mul 1 rest + d0 * fold_right Nat.mul 1 rest) 0) as [E|_];
    [rewrite E in Hf; now apply Nat.lt_irrefl in Hf|].
  apply normal__drawn. apply Rmult_le_pos; [exact Hg | apply sqrt_pos].
Qed.

Lemma kaiming_normal__drawn (t : Tensor) (a : R) (d0 d1 : nat) (rest : list nat) :
  size t = d0 :: d1 :: rest ->
  existsb (Nat.eqb 0) (size t) = false ->
  returns (kaiming_normal_ t a "fan_in")
    (drawn (Normal 0 (sqrt (2 / (1 + a * a))
                      / sqrt (INR (d1 * fold_right Nat.mul 1 rest)))) t).
Proof.
  intros Es Hz. unfold kaiming_normal_. rewrite Hz.
  eapply returns_lift_Ok;
    [unfold calculate_correct_fan, fan_in_and_fan_out; rewrite Es; reflexivity|].
  cbn [fst]. apply normal__drawn, div_sqrt_nonneg.
Qed.

Lemma orthogonal__drawn (t : Tensor) (gain : R) :
  2 <= length (size t) -> numel t <> 0 ->
  returns (orthogonal_ t gain) (drawn (Orthogonal gain) t).
Proof.
  intros H Hn g. unfold orthogonal_.
  apply Nat.ltb_ge in H. rewrite H.
  apply Nat.eqb_neq in Hn. rewrite Hn.
  unfold bind, draw_data, ret.
  destruct (draw (Orthogonal gain) (size t) g) as [v g1] eqn:Ed.
  exists (mkTensor (size t) v), g1. split; [reflexivity|].
  exists g. now rewrite Ed.
Qed.

Lemma proper_no_zero (i o k : nat) :
  0 < i -> 0 < o -> 0 < k ->
  existsb (Nat.eqb 0) [o; i; k; k] = false
  /\ existsb (Nat.eqb 0) [i; o; k; k] = false
  /\ o * (i * (k * (k * 1))) <> 0 /\ i * (o * (k * (k * 1))) <> 0.
Proof.
  intros Hi Ho Hk. simpl.
  destruct i; [lia|]. destruct o; [lia|]. destruct k; [lia|].
  simpl. repeat split; lia.
Qed.

(** The weight step of [init_func] under a policy, on a weight tensor [w]
    of a convolution with elements. *)
Lemma weight_step_drawn (t : string) (gain : R) (w : Tensor) (d0 d1 k : nat) :
  In t policies ->
  (t = "normal"%string \/ t = "xavier"%string -> (0 <= gain)%R) ->
  size w = [d0; d1; k; k] -> 0 < d0 -> 0 < d1 -> 0 < k ->
  returns
    (if (t =? "normal")%string then normal_ w 0 gain
     else if (t =? "xavier")%string then xavier_normal_ w gain
     else if (t =? "kaiming")%string then kaiming_normal_ w 0 "fan_in"
     else orthogonal_ w gain)
    (drawn (policy_dist t gain w) w).
Proof.
  intros Ht Hg Es H0 H1 Hk.
  destruct (proper_no_zero H1 H0 Hk) as (Hz & _ & Hnum & _).
  unfold policy_dist, fan_in_and_fan_out. rewrite Es.
  destruct Ht as [<-|[<-|[<-|[<-|[]]]]]; cbn [String.eqb Ascii.eqb Bool.eqb].
  - apply normal__drawn. auto.
  - apply (@xavier_normal__drawn w gain _ _ _ Es).
    + simpl. apply fans_positive; clear - H0 H1 Hk; lia.
    + auto.
  - apply (@kaiming_normal__drawn w 0 _ _ _ Es). now rewrite Es.
  - apply orthogonal__drawn; [rewrite Es; simpl; repeat constructor|].
    unfold numel. rewrite Es. exact Hnum.
Qed.

Lemma init_func_Builtin_drawn (t : string) (gain : R) (l : Layer) :
  In t policies ->
  (t = "normal"%string \/ t = "xavier"%string -> (0 <= gain)%R) ->
  Forall proper_conv (convs (Builtin l)) ->
  returns (init_func t gain (Builtin l))
    (fun m' => exists l', m' = Builtin l' /\ layer_drawn_rel t gain l l').
Proof.
  intros Ht Hg Hp.
  assert (Eo : (t =? "orthogonal")%string = true
               \/ (t =? "normal")%string = true
               \/ (t =? "xavier")%string = true
               \/ (t =? "kaiming")%string = true)
    by (clear - Ht; destruct Ht as [<-|[<-|[<-|[<-|[]]]]]; simpl; tauto).
  destruct l as [p|c|c|n|b];
    try (apply returns_ret; eexists; split; reflexivity).
  - apply Forall_inv in Hp. destruct Hp as (Hi & Ho & Hk).
    pose proof (@weight_step_drawn t gain (Conv2d_weight c) _ _ _ Ht Hg eq_refl
                  Ho Hi Hk) as Hw.
    unfold init_func.
    change (class_name (Builtin (Conv2d c))) with "Conv2d"%string.
    change (hasattr (weight_attr (Builtin (Conv2d c)))
            && (negb (find "Conv2d" "Conv" =? -1)%Z
                || negb (find "Conv2d" "Linear" =? -1)%Z)) with true.
    cbv iota.
    eapply returns_bind
      with (P := fun m1 => exists w', drawn (policy_dist t gain (Conv2d_weight c))
                                        (Conv2d_weight c) w'
                                      /\ m1 = store_weight (Builtin (Conv2d c)) w').
    + unfold on_weight_data. simpl weight_attr.
      destruct (t =? "normal")%string;
        [|destruct (t =? "xavier")%string;
          [|destruct (t =? "kaiming")%string;
            [|destruct (t =? "orthogonal")%string;
              [|exfalso; destruct Eo as [E|[E|[E|E]]]; discriminate]]]];
        (eapply returns_bind; [exact Hw|]; intros w' Hw';
         apply returns_ret; now exists w').
    + intros m1 (w' & (g0 & ->) & ->). simpl.
      unfold Conv_bias. simpl. destruct (bias_data c) as [b1|] eqn:Eb; simpl.
      * unfold on_bias_data; simpl. unfold Conv_bias; simpl; rewrite Eb; simpl.
        apply returns_ret. eexists; split; [reflexivity|].
        eexists _, g0; split; [reflexivity|]. split; reflexivity.
      * apply returns_ret. eexists; split; [reflexivity|].
        eexists _, g0; split; [reflexivity|]. split; reflexivity.
  - apply Forall_inv in Hp. destruct Hp as (Hi & Ho & Hk).
    pose proof (@weight_step_drawn t gain (ConvTranspose2d_weight c) _ _ _ Ht Hg
                  eq_refl Hi Ho Hk) as Hw.
    unfold init_func.
    change (class_name (Builtin (ConvTranspose2d c))) with "ConvTranspose2d"%string.
    change (hasattr (weight_attr (Builtin (ConvTranspose2d c)))
            && (negb (find "ConvTranspose2d" "Conv" =? -1)%Z
                || negb (find "ConvTranspose2d" "Linear" =? -1)%Z)) with true.
    cbv iota.
    eapply returns_bind
      with (P := fun m1 => exists w', drawn (policy_dist t gain
                                               (ConvTranspose2d_weight c))
                                        (ConvTranspose2d_weight c) w'
                                      /\ m1 = store_weight
                                                (Builtin (ConvTranspose2d c)) w').
    + unfold on_weight_data. simpl weight_attr.
      destruct (t =? "normal")%string;
        [|destruct (t =? "xavier")%string;
          [|destruct (t =? "kaiming")%string;
            [|destruct (t =? "orthogonal")%string;
              [|exfalso; destruct Eo as [E|[E|[E|E]]]; discriminate]]]];
        (eapply returns_bind; [exact Hw|]; intros w' Hw';
         apply returns_ret; now exists w').
    + intros m1 (w' & (g0 & ->) & ->). simpl.
      unfold Conv_bias. simpl. destruct (bias_data c) as [b1|] eqn:Eb; simpl.
      * unfold on_bias_data; simpl. unfold Conv_bias; simpl; rewrite Eb; simpl.
        apply returns_ret. eexists; split; [reflexivity|].
        eexists _, g0; split; [reflexivity|]. split; reflexivity.
      * apply returns_ret. eexists; split; [reflexivity|].
        eexists _, g0; split; [reflexivity|]. split; reflexivity.
Qed.

(** X7.  Under each of the four policies, for a gain that is not negative
    when it is used as a standard deviation ('normal', 'xavier') and a
    tree whose convolutions have at least one input channel, one output
    channel and one kernel position, [init_weights] replaces every weight by
    one draw of its own size: from Normal(0, gain) for 'normal', from
    Normal(0, gain sqrt(2 / (fan_in + fan_out))) for 'xavier', from
    Normal(0, sqrt(2) / sqrt(fan_in)) for 'kaiming' and from the orthogonal
    initialiser with that gain for 'orthogonal'. *)
Theorem init_weights_draws_weights (m : nnModule) (init_type : string) (gain : R)
    (g : rng) :
  In init_type policies ->
  (init_type = "normal"%string \/ init_type = "xavier"%string -> (0 <= gain)%R) ->
  Forall proper_conv (convs m) ->
  exists m' g',
    init_weights m init_type gain g = Ok (m', g')
    /\ Forall2
         (fun l l' =>
            forall w, weight_attr l = AttrTensor w ->
              exists g0,
                weight_attr l'
                = AttrTensor
                    (mkTensor (size w)
                       (fst (draw (policy_dist init_type gain w) (size w) g0))))
         (modules m) (modules m').
Proof.
  intros Ht Hg Hp.
  destruct (@apply_init_func_rel init_type gain proper_conv _
              (fun l => @init_func_Builtin_drawn init_type gain l Ht Hg) m Hp g)
    as (m' & g' & E & H).
  exists m', g'. split; [exact E|].
  apply tree_rel_modules in H.
  eapply Forall2_impl; [|exact H]. clear. intros l l' Hl w.
  inversion Hl as [a a' Ha| | | |]; subst; simpl; try discriminate.
  destruct a; simpl in *; try discriminate;
    destruct Ha as (c' & g0 & -> & Hc & Hw);
    apply Conv_arch_eq in Hc as (Hi & Ho & Hk);
    intros E; injection E as <-; exists g0; simpl;
    unfold Conv2d_weight, ConvTranspose2d_weight;
    now rewrite Hi, Ho, Hk, Hw.
Qed.

(* ================================================================== *)
(** ** More on the forward passes *)

(** X8.  Every [EdgeGenerator] the constructor returns is an encoder, a
    middle stage and a decoder; whenever its forward pass returns, the
    output has 1 channel and each entry is the float32 sigmoid of the entry
    of the raw decoder output at the same index: in the closed interval
    [0, 1] when that entry is a number or an infinity, NaN when it is NaN. *)
Theorem EdgeGenerator_forward_range (scale residual_blocks : Z)
    (use_spectral_norm init_weights : bool) (g : rng) :
  exists e mi d g',
    EdgeGenerator_init scale residual_blocks use_spectral_norm init_weights g
    = Ok (EdgeGenerator e mi d, g')
    /\ forall x out,
         forward (EdgeGenerator e mi d) x = Ok out ->
         exists raw,
           rbind (forward e x) (fun x1 => rbind (forward mi x1) (forward d)) = Ok raw
           /\ (exists B H W, size out = [B; 1; H; W])
           /\ size raw = size out
           /\ forall idx,
                data out idx = sigmoid ar (data raw idx)
                /\ (data raw idx <> NaN -> in_unit_interval (data out idx))
                /\ (data raw idx = NaN -> data out idx = NaN).
Proof.
  destruct (EdgeGenerator_init_spec scale residual_blocks use_spectral_norm
              init_weights g) as (m & g' & E & Ha).
  destruct (arch_EdgeGenerator_inv _ Ha) as (e & mi & d & -> & _ & _ & Hd).
  exists e, mi, d, g'. split; [exact E|].
  intros x out H. simpl in H.
  apply rbind_Ok in H as (x1 & E1 & H). apply rbind_Ok in H as (x2 & E2 & H).
  apply rbind_Ok in H as (x3 & E3 & H). injection H as <-.
  exists x3. split; [rewrite E1; cbn [rbind]; rewrite E2; exact E3|].
  split; [|split; [reflexivity|]].
  - apply forward_Ok_size in E3. rewrite <- arch_out_size, Hd in E3.
    apply decoder_out_channels in E3. exact E3.
  - intros idx. split; [reflexivity|]. simpl. split.
    + destruct (data x3 idx) as [r| | |]; simpl; intros Hr; [| | |congruence].
      * exists (sigmoid32 ar r). split; [reflexivity | apply sigmoid32_range].
      * exists 1%R. split; [reflexivity | lra].
      * exists 0%R. split; [reflexivity | lra].
    + intros ->. reflexivity.
Qed.

Lemma encoder_size_any (n H W : nat) :
  4 <= H -> 4 <= W -> (H / 4) * (W / 4) <> 1 ->
  out_size encoder_arch [n; 4; H; W] = Ok [n; 256; H / 4; W / 4].
Proof.
  intros HH HW Hq. unfold encoder_arch, out_size; fold out_size.
  assert (2 <= H / 2) by lia. assert (2 <= W / 2) by lia.
  rewrite run_seq_Builtin with (s' := [n; 4; H + 6; W + 6])
    by (apply size_pad; lia).
  rewrite run_seq_Builtin with (s' := [n; 64; H; W])
    by (apply size_conv; extent).
  rewrite run_seq_Builtin with (s' := [n; 64; H; W])
    by (apply size_instance_norm; nia).
  rewrite run_seq_Builtin with (s' := [n; 64; H; W]) by reflexivity.
  rewrite run_seq_Builtin with (s' := [n; 128; H / 2; W / 2])
    by (apply size_conv; extent).
  rewrite run_seq_Builtin with (s' := [n; 128; H / 2; W / 2])
    by (apply size_instance_norm; nia).
  rewrite run_seq_Builtin with (s' := [n; 128; H / 2; W / 2]) by reflexivity.
  rewrite run_seq_Builtin with (s' := [n; 256; H / 4; W / 4])
    by (apply size_conv; extent).
  rewrite run_seq_Builtin with (s' := [n; 256; H / 4; W / 4])
    by (apply size_instance_norm; assumption).
  rewrite run_seq_Builtin with (s' := [n; 256; H / 4; W / 4]) by reflexivity.
  reflexivity.
Qed.

Lemma generator_size_any (k o n H W : nat)
    (G : nnModule -> nnModule -> nnModule -> nnModule) :
  G = SRGenerator \/ G = EdgeGenerator ->
  12 <= H -> 12 <= W ->
  out_size (G encoder_arch (middle_arch k) (decoder_arch o)) [n; 4; H; W]
  = Ok [n; o; 4 * (H / 4); 4 * (W / 4)].
Proof.
  intros HG HH HW.
  assert (3 <= H / 4) by lia. assert (3 <= W / 4) by lia.
  assert (E : out_size (G encoder_arch (middle_arch k) (decoder_arch o))
                [n; 4; H; W]
              = rbind (out_size encoder_arch [n; 4; H; W])
                  (fun s1 => rbind (out_size (middle_arch k) s1)
                               (out_size (decoder_arch o))))
    by (destruct HG as [->| ->]; reflexivity).
  rewrite E, encoder_size_any by (try lia; nia). cbn [rbind].
  rewrite middle_size by (right; lia). cbn [rbind].
  apply decoder_size; lia.
Qed.

(** X9.  Both generators round the spatial size of their input down to a
    multiple of 4: on an input of size (B, 4, H, W) with H and W at least
    12 the forward pass returns a tensor of size (B, o, 4 (H / 4),
    4 (W / 4)), o = 3 for [SRGenerator] and 1 for [EdgeGenerator], which is
    the spatial size of the input exactly when 4 divides H and W. *)
Theorem generators_round_size_down (scale residual_blocks : Z)
    (use_spectral_norm init_weights : bool) (g : rng) :
  (exists m g',
     SRGenerator_init scale residual_blocks init_weights g = Ok (m, g')
     /\ forall (x : Tensor) (B H W : nat),
          size x = [B; 4; H; W] -> 12 <= H -> 12 <= W ->
          exists out,
            forward m x = Ok out
            /\ size out = [B; 3; 4 * (H / 4); 4 * (W / 4)]
            /\ (size out = [B; 3; H; W] <-> Nat.divide 4 H /\ Nat.divide 4 W))
  /\ exists m g',
       EdgeGenerator_init scale residual_blocks use_spectral_norm init_weights g
       = Ok (m, g')
       /\ forall (x : Tensor) (B H W : nat),
            size x = [B; 4; H; W] -> 12 <= H -> 12 <= W ->
            exists out,
              forward m x = Ok out
              /\ size out = [B; 1; 4 * (H / 4); 4 * (W / 4)]
              /\ (size out = [B; 1; H; W] <-> Nat.divide 4 H /\ Nat.divide 4 W).
Proof.
  assert (Hdiv : forall o B H W : nat,
             [B; o; 4 * (H / 4); 4 * (W / 4)] = [B; o; H; W]
             <-> Nat.divide 4 H /\ Nat.divide 4 W).
  { intros o B H W. split.
    - intros E. injection E as EH EW.
      split; [exists (H / 4) | exists (W / 4)]; lia.
    - intros [[q ->] [r ->]].
      replace (4 * (q * 4 / 4)) with (q * 4) by lia.
      replace (4 * (r * 4 / 4)) with (r * 4) by lia. reflexivity. }
  split.
  - destruct (SRGenerator_init_spec scale residual_blocks init_weights g)
      as (m & g' & E & Ha).
    exists m, g'. split; [exact E|]. intros x B H W Hx HH HW.
    destruct (@forward_returns m x [B; 3; 4 * (H / 4); 4 * (W / 4)])
      as (out & Eo & So).
    { rewrite <- arch_out_size, Ha, Hx.
      apply (@generator_size_any _ 3 B H W SRGenerator); auto. }
    exists out. split; [exact Eo|]. split; [exact So|].
    rewrite So. apply Hdiv.
  - destruct (EdgeGenerator_init_spec scale residual_blocks use_spectral_norm
                init_weights g) as (m & g' & E & Ha).
    exists m, g'. split; [exact E|]. intros x B H W Hx HH HW.
    destruct (@forward_returns m x [B; 1; 4 * (H / 4); 4 * (W / 4)])
      as (out & Eo & So).
    { rewrite <- arch_out_size, Ha, Hx.
      apply (@generator_size_any _ 1 B H W EdgeGenerator); auto. }
    exists out. split; [exact Eo|]. split; [exact So|].
    rewrite So. apply Hdiv.
Qed.

(** *** Where the forward passes raise *)

Lemma interpolate_Ok_inv (x y : Tensor) (n c h w k : nat) :
  size x = [n; c; h; w] -> interpolate x k = Ok y -> 0 < h /\ 0 < w /\ 0 < k.
Proof.
  intros Hs. unfold interpolate. rewrite Hs.
  cbn [length Nat.leb andb forallb].
  destruct (Nat.ltb_spec 0 h), (Nat.ltb_spec 0 w), (Nat.ltb_spec 0 k);
    cbn [andb]; try discriminate. now intros _.
Qed.

Lemma interpolate_empty_raises (x : Tensor) (n c h w k : nat) :
  size x = [n; c; h; w] -> h = 0 \/ w = 0 ->
  interpolate x k = Raise RuntimeError.
Proof.
  intros Hs H0. unfold interpolate. rewrite Hs.
  cbn [length Nat.leb andb forallb].
  destruct (Nat.ltb_spec 0 h), (Nat.ltb_spec 0 w); cbn [andb];
    try reflexivity. lia.
Qed.

Lemma cat_Ok_inv (a b y : Tensor) (n c1 h w : nat) :
  size a = [n; c1; h; w] -> cat a b 1 = Ok y ->
  exists c2, size b = [n; c2; h; w] /\ size y = [n; c1 + c2; h; w].
Proof.
  intros Ha. unfold cat. rewrite Ha.
  destruct (size b) as [|n' [|c2 [|h' [|w' [|? ?]]]]]; simpl;
    rewrite ?andb_false_r; try discriminate.
  destruct (Nat.eqb_spec n n'), (Nat.eqb_spec h h'), (Nat.eqb_spec w w');
    simpl; try discriminate.
  intros E. injection E as <-. subst. now exists c2.
Qed.

Lemma cat_mismatch (a b : Tensor) (n c1 h w n' c2 h' w' : nat) :
  size a = [n; c1; h; w] -> size b = [n'; c2; h'; w'] ->
  n <> n' \/ h <> h' \/ w <> w' ->
  cat a b 1 = Raise RuntimeError.
Proof.
  intros Ha Hb Hne. unfold cat. rewrite Ha, Hb. simpl.
  destruct (Nat.eqb_spec n n'), (Nat.eqb_spec h h'), (Nat.eqb_spec w w');
    simpl; try reflexivity. tauto.
Qed.

Lemma pad_Ok_inv (p : nat) (s s' : list nat) :
  Layer_out_size (ReflectionPad2d p) s = Ok s' ->
  exists n c h w, s = [n; c; h; w] /\ 0 < c /\ p < h /\ p < w
                  /\ s' = [n; c; h + 2 * p; w + 2 * p].
Proof.
  destruct s as [|n [|c [|h [|w [|? ?]]]]]; simpl; try discriminate.
  destruct (Nat.ltb_spec 0 c), (Nat.ltb_spec p h), (Nat.ltb_spec p w); simpl;
    try discriminate.
  intros E. injection E as <-. now exists n, c, h, w.
Qed.

Lemma conv_Ok_channels (c : Conv) (s s' : list nat) :
  Layer_out_size (Conv2d c) s = Ok s' ->
  exists n h w, s = [n; in_channels c; h; w].
Proof.
  destruct s as [|n [|ch [|h [|w [|? ?]]]]]; simpl; try discriminate.
  destruct (Nat.eqb_spec ch (in_channels c)); [|discriminate].
  intros _. subst. now exists n, h, w.
Qed.

Lemma generator_out_size_inv (enc mid dec : nnModule) (s s' : list nat)
    (G : nnModule -> nnModule -> nnModule -> nnModule) :
  G = SRGenerator \/ G = EdgeGenerator ->
  out_size (G enc mid dec) s = Ok s' ->
  exists s1 s2,
    out_size enc s = Ok s1 /\ out_size mid s1 = Ok s2 /\ out_size dec s2 = Ok s'.
Proof.
  intros HG H.
  assert (E : out_size (G enc mid dec) s
              = rbind (out_size enc s)
                  (fun s1 => rbind (out_size mid s1) (out_size dec)))
    by (destruct HG as [->| ->]; reflexivity).
  rewrite E in H. apply rbind_Ok in H as (s1 & E1 & H).
  apply rbind_Ok in H as (s2 & E2 & H). now exists s1, s2.
Qed.

Lemma encoder_in_channels (s s' : list nat) :
  out_size encoder_arch s = Ok s' -> exists n h w, s = [n; 4; h; w].
Proof.
  unfold encoder_arch. cbn [out_size run_seq]. intros H.
  apply rbind_Ok in H as (s1 & E1 & H).
  apply rbind_Ok in H as (s2 & E2 & _).
  apply pad_Ok_inv in E1 as (n & c & h & w & -> & _ & _ & _ & ->).
  apply conv_Ok_channels in E2 as (n' & h' & w' & E2).
  injection E2 as _ -> _ _. now exists n, h, w.
Qed.

Lemma ResnetBlock_arch_domain (dim dilation n c h w : nat) (s : list nat) :
  out_size (ResnetBlock_arch dim dilation) [n; c; h; w] = Ok s ->
  dilation < h /\ dilation < w.
Proof.
  unfold ResnetBlock_arch. cbn [out_size run_seq]. intros H.
  apply rbind_Ok in H as (s1 & H & _).
  apply rbind_Ok in H as (s2 & H & _).
  apply pad_Ok_inv in H as (n' & c' & h' & w' & E & _ & Hh & Hw & _).
  injection E as _ _ -> ->. now split.
Qed.

Lemma generator_domain (k o n h w : nat) (s : list nat)
    (G : nnModule -> nnModule -> nnModule -> nnModule) :
  G = SRGenerator \/ G = EdgeGenerator ->
  0 < h -> 0 < w ->
  out_size (G encoder_arch (middle_arch (S k)) (decoder_arch o))
    [n; 4; 4 * h; 4 * w] = Ok s ->
  3 <= h /\ 3 <= w.
Proof.
  intros HG Hh Hw H.
  apply generator_out_size_inv in H as (s1 & s2 & E1 & E2 & _); [|exact HG].
  destruct (Nat.eq_dec (h * w) 1) as [Hhw|Hhw].
  - assert (h = 1 /\ w = 1) as [-> ->] by nia.
    vm_compute in E1. discriminate E1.
  - rewrite encoder_size in E1 by assumption. injection E1 as <-.
    unfold middle_arch in E2. cbn [out_size repeat run_seq] in E2.
    apply rbind_Ok in E2 as (s3 & E2 & _).
    apply ResnetBlock_arch_domain in E2. lia.
Qed.

(** X10.  A model built by [EdgeSRModel(use_spectral_norm)], given an image
    of size (B, 3, H, W) and an edge map of size (B, 1, H, W), returns a
    result exactly when H and W are at least 3; on smaller inputs it
    raises. *)
Theorem EdgeSRModel_forward_domain (use_spectral_norm : bool) (g : rng) :
  exists self g',
    EdgeSRModel_init use_spectral_norm g = Ok (self, g')
    /\ forall (lr lr_edges : Tensor) (B H W : nat),
         size lr = [B; 3; H; W] -> size lr_edges = [B; 1; H; W] ->
         ((exists out, EdgeSRModel_forward self lr lr_edges = Ok out)
          <-> 3 <= H /\ 3 <= W).
Proof.
  destruct (EdgeSRModel_init_spec use_spectral_norm g) as (self & g' & E & He & Hs).
  exists self, g'. split; [exact E|].
  intros lr lr_edges B H W Hlr Hle. split.
  - intros (out & Ho). apply forward_steps_iff in Ho
      as (a & b & c & d & e & Ea & Eb & Ec & Ed & _).
    assert (0 < H /\ 0 < W /\ 0 < 4) as (HH & HW & _)
      by (eapply interpolate_Ok_inv; eassumption).
    destruct (@interpolate_4d lr B 3 H W 4 Hlr) as (a' & Ea' & Sa & _); try lia.
    destruct (@interpolate_4d lr_edges B 1 H W 4 Hle) as (b' & Eb' & Sb & _);
      try lia.
    rewrite Ea in Ea'. injection Ea' as <-.
    rewrite Eb in Eb'. injection Eb' as <-.
    destruct (cat_channels a b Sa Sb) as (c' & Ec' & Sc & _).
    rewrite Ec in Ec'. injection Ec' as <-. change (3 + 1) with 4 in Sc.
    apply forward_Ok_size in Ed. rewrite <- arch_out_size, He, Sc in Ed.
    apply (@generator_domain 7 1 B H W _ EdgeGenerator) in Ed; auto.
  - intros (HH & HW).
    destruct (EdgeSRModel_forward_trace self lr lr_edges He Hs Hlr Hle HH HW)
      as (a & b & c & d & e & o & Hsteps & _).
    exists o. apply forward_steps_iff. now exists a, b, c, d, e.
Qed.

(** X11.  [EdgeSRModel.forward], with any two generators, raises a
    RuntimeError when the image and the edge map differ in batch size,
    height or width. *)
Theorem EdgeSRModel_forward_rejects_mismatch (self : EdgeSRModel)
    (lr lr_edges : Tensor) (B c1 H W B' c2 H' W' : nat) :
  size lr = [B; c1; H; W] -> size lr_edges = [B'; c2; H'; W'] ->
  B <> B' \/ H <> H' \/ W <> W' ->
  EdgeSRModel_forward self lr lr_edges = Raise RuntimeError.
Proof.
  intros Hlr Hle Hne. unfold EdgeSRModel_forward.
  destruct (Nat.eq_dec H 0) as [H0|H0];
    [rewrite (@interpolate_empty_raises lr _ _ _ _ 4 Hlr (or_introl H0));
     reflexivity|].
  destruct (Nat.eq_dec W 0) as [W0|W0];
    [rewrite (@interpolate_empty_raises lr _ _ _ _ 4 Hlr (or_intror W0));
     reflexivity|].
  destruct (@interpolate_4d lr B c1 H W 4 Hlr) as (a & Ea & Sa & _); try lia.
  rewrite Ea. cbn [rbind].
  destruct (Nat.eq_dec H' 0) as [H0'|H0'];
    [rewrite (@interpolate_empty_raises lr_edges _ _ _ _ 4 Hle (or_introl H0'));
     reflexivity|].
  destruct (Nat.eq_dec W' 0) as [W0'|W0'];
    [rewrite (@interpolate_empty_raises lr_edges _ _ _ _ 4 Hle (or_intror W0'));
     reflexivity|].
  destruct (@interpolate_4d lr_edges B' c2 H' W' 4 Hle) as (b & Eb & Sb & _);
    try lia.
  rewrite Eb. cbn [rbind].
  rewrite (cat_mismatch a b Sa Sb) by lia. reflexivity.
Qed.

(** X12.  A model built by [EdgeSRModel(use_spectral_norm)] raises on every
    pair of four-dimensional inputs in which the image does not have 3
    channels or the edge map does not have 1. *)
Theorem EdgeSRModel_forward_rejects_channels (use_spectral_norm : bool) (g : rng) :
  exists self g',
    EdgeSRModel_init use_spectral_norm g = Ok (self, g')
    /\ forall (lr lr_edges : Tensor) (B c1 H W B' c2 H' W' : nat),
         size lr = [B; c1; H; W] -> size lr_edges = [B'; c2; H'; W'] ->
         c1 <> 3 \/ c2 <> 1 ->
         exists e, EdgeSRModel_forward self lr lr_edges = Raise e.
Proof.
  destruct (EdgeSRModel_init_spec use_spectral_norm g) as (self & g' & E & He & Hs).
  exists self, g'. split; [exact E|].
  intros lr lr_edges B c1 H W B' c2 H' W' Hlr Hle Hc.
  destruct (EdgeSRModel_forward self lr lr_edges) as [out|e] eqn:Ho;
    [exfalso | now exists e].
  apply forward_steps_iff in Ho as (a & b & c & d & x & Ea & Eb & Ec & Ed & Ex & Eo).
  assert (0 < H /\ 0 < W /\ 0 < 4) as (HH & HW & _)
    by (eapply interpolate_Ok_inv; eassumption).
  assert (0 < H' /\ 0 < W' /\ 0 < 4) as (HH' & HW' & _)
    by (eapply interpolate_Ok_inv; eassumption).
  destruct (@interpolate_4d lr B c1 H W 4 Hlr) as (a' & Ea' & Sa & _); try lia.
  destruct (@interpolate_4d lr_edges B' c2 H' W' 4 Hle) as (b' & Eb' & Sb & _);
    try lia.
  rewrite Ea in Ea'. injection Ea' as <-.
  rewrite Eb in Eb'. injection Eb' as <-.
  destruct (@cat_Ok_inv a b c _ _ _ _ Sa Ec) as (k2 & Sb' & Sc).
  rewrite Sb in Sb'. injection Sb' as _ <- _ _.
  apply forward_Ok_size in Ed. rewrite <- arch_out_size, He in Ed.
  apply generator_out_size_inv in Ed as (s1 & s2 & Ed1 & _ & Ed3);
    [|now right].
  apply encoder_in_channels in Ed1 as (n1 & h1 & w1 & Ed1).
  rewrite Sc in Ed1. injection Ed1 as _ Hsum _ _.
  apply decoder_out_channels in Ed3 as (n2 & h2 & w2 & Sd).
  destruct (@cat_Ok_inv a d x _ _ _ _ Sa Ex) as (k3 & Sd' & Sx).
  rewrite Sd in Sd'. injection Sd' as _ <- _ _.
  apply forward_Ok_size in Eo. rewrite <- arch_out_size, Hs in Eo.
  apply generator_out_size_inv in Eo as (t1 & t2 & Eo1 & _ & _);
    [|now left].
  apply encoder_in_channels in Eo1 as (n3 & h3 & w3 & Eo1).
  rewrite Sx in Eo1. injection Eo1 as _ Hsum' _ _.
  lia.
Qed.

(** X13.  For at least one channel, dilation at least 1 and an input of
    size (B, dim, H, W), the block
    [ResnetBlock(dim, dilation, use_spectral_norm)] returns a result exactly
    when H and W are larger than the dilation; when it does, the result has
    the size of the input. *)
Theorem ResnetBlock_forward_domain (dim dilation : nat) (use_spectral_norm : bool)
    (g : rng) :
  1 <= dim ->
  exists block g',
    ResnetBlock_init dim dilation use_spectral_norm g = Ok (block, g')
    /\ forall (x : Tensor) (B H W : nat),
         1 <= dilation -> size x = [B; dim; H; W] ->
         ((exists out, forward block x = Ok out) <-> dilation < H /\ dilation < W)
         /\ forall out, forward block x = Ok out -> size out = size x.
Proof.
  intros Hdim.
  destruct (@ResnetBlock_init_spec dim dilation use_spectral_norm
              (fun _ => Hdim) g)
    as (m & g' & E & Hb).
  pose proof (built_block_arch Hb) as Ha.
  exists m, g'. split; [exact E|].
  intros x B H W Hd Hx.
  assert (Hdom : forall out, forward m x = Ok out ->
                             dilation < H /\ dilation < W).
  { intros out Ho. apply forward_Ok_size in Ho.
    rewrite <- arch_out_size, Ha, Hx in Ho.
    now apply ResnetBlock_arch_domain in Ho. }
  split; [split|].
  - intros (out & Ho). now apply (Hdom out).
  - intros (HH & HW). destruct (@forward_returns m x [B; dim; H; W])
      as (out & Ho & _); [|now exists out].
    rewrite <- arch_out_size, Ha, Hx. now apply ResnetBlock_arch_size.
  - intros out Ho. destruct (Hdom out Ho) as (HH & HW).
    apply forward_Ok_size in Ho.
    rewrite <- arch_out_size, Ha, Hx, ResnetBlock_arch_size in Ho by assumption.
    now injection Ho as <-.
Qed.

End Engine.

(* ================================================================== *)
(** ** Examples on the zero engine *)

Example find_Conv :
  find "ConvTranspose2d" "Conv" = 0%Z /\ find "InstanceNorm2d" "Conv" = (-1)%Z
  /\ find "ResnetBlock" "Linear" = (-1)%Z.
Proof. repeat split. Qed.

Example EdgeGenerator_size_64 :
  out_size (EdgeGenerator_arch 8) [1; 4; 64; 64] = Ok [1; 1; 64; 64].
Proof. vm_compute. reflexivity. Qed.

(** Below 3 rows after the encoder the first residual block cannot pad by
    its dilation 2, and a single position cannot be normalised. *)
Example SRGenerator_size_8 :
  out_size (SRGenerator_arch 8) [1; 4; 8; 8] = Raise RuntimeError.
Proof. vm_compute. reflexivity. Qed.

Example EdgeGenerator_size_4 :
  out_size (EdgeGenerator_arch 0) [1; 4; 4; 4] = Raise ValueError.
Proof. vm_compute. reflexivity. Qed.

(** Without the divisibility by 4 the decoder does not restore the size. *)
Example EdgeGenerator_size_10 :
  out_size (EdgeGenerator_arch 0) [1; 4; 10; 10] = Ok [1; 1; 8; 8].
Proof. vm_compute. reflexivity. Qed.

(** An image without rows or columns is rejected by the interpolation. *)
Example interpolate_empty :
  rmap size (interpolate (full [1; 3; 0; 0] 0) 4) = Raise RuntimeError.
Proof. reflexivity. Qed.

Lemma EdgeSRModel_forward_size_example :
  exists self out,
    EdgeSRModel_forward zero_kernel range_arith self sample_lr sample_lr_edges = Ok out
    /\ size out = [1; 3; 64; 64].
Proof.
  destruct (@EdgeSRModel_forward_size unit zero_draw zero_kernel range_arith true tt)
    as (self & g' & _ & H).
  destruct (H sample_lr sample_lr_edges 1 16 16 eq_refl eq_refl
              ltac:(lia) ltac:(lia)
              (ex_intro _ 4 eq_refl) (ex_intro _ 4 eq_refl))
    as (out & E & S).
  exists self, out. split; [exact E | exact S].
Defined.

Lemma EdgeSRModel_forward_data_flow_example :
  exists self lr_scaled inputs edge_gen inputs' out,
    EdgeSRModel_forward zero_kernel range_arith self sample_lr sample_lr_edges = Ok out
    /\ size lr_scaled = [1; 3; 64; 64]
    /\ size inputs = [1; 4; 64; 64]
    /\ size edge_gen = [1; 1; 64; 64]
    /\ size inputs' = [1; 4; 64; 64]
    /\ size out = [1; 3; 64; 64].
Proof.
  destruct (@EdgeSRModel_forward_data_flow unit zero_draw zero_kernel range_arith true tt)
    as (self & g' & _ & _ & H).
  destruct (H sample_lr sample_lr_edges 1 16 16 eq_refl eq_refl
              ltac:(lia) ltac:(lia)
              (ex_intro _ 4 eq_refl) (ex_intro _ 4 eq_refl))
    as (a & b & c & d & e & out & _ & Hshape & E).
  exists self, a, c, d, e, out.
  split; [exact E|]. repeat split; apply Hshape.
Defined.

Lemma SRGenerator_forward_range_example :
  exists m out,
    forward zero_kernel range_arith m sample_input = Ok out
    /\ size out = [1; 3; 8; 8]
    /\ in_unit_interval (data out origin).
Proof.
  destruct (@SRGenerator_forward_range unit zero_draw zero_kernel range_arith
              4 0 false tt)
    as (e & mi & d & g' & E & Hrange & Hreturns).
  destruct (Hreturns sample_input 1 2 2 eq_refl ltac:(lia)
              (or_introl (Z.le_refl 0)))
    as (out & Eo & So).
  destruct (Hrange sample_input out Eo) as (raw & Er & _ & _ & Hr).
  exists (SRGenerator e mi d), out.
  split; [exact Eo|]. split; [exact So|].
  apply Hr.
  cbn in E. injection E as <- <- <- _.
  cbn in Er. injection Er as <-. discriminate.
Defined.

Lemma ResnetBlock_forward_residual_example :
  exists block fx out,
    forward zero_kernel range_arith block sample_features = Ok out
    /\ size out = [1; 2; 3; 3]
    /\ data out origin = fadd range_arith (Finite 1) (data fx origin).
Proof.
  destruct (@ResnetBlock_forward_residual unit zero_draw zero_kernel range_arith
              2 1 false tt ltac:(lia))
    as (c1 & c2 & g' & _ & H).
  destruct (H sample_features 1 3 3 ltac:(lia) eq_refl ltac:(lia) ltac:(lia))
    as (fx & out & _ & Eo & So & Do).
  eexists _, fx, out. split; [exact Eo|]. split; [exact So | apply Do].
Defined.

Lemma EdgeGenerator_without_blocks_example :
  exists m out,
    forward zero_kernel range_arith m sample_input = Ok out /\ size out = [1; 1; 8; 8].
Proof.
  destruct (@EdgeGenerator_without_blocks unit zero_draw zero_kernel range_arith 4 true true tt)
    as (e & d & g' & _ & _ & H).
  destruct (H sample_input 1 2 2 eq_refl ltac:(lia))
    as (raw & out & _ & Eo & So & _).
  eexists _, out. split; [exact Eo | exact So].
Defined.

Lemma scale_is_unused_example :
  exists model out,
    EdgeSRModel_forward zero_kernel range_arith model sample_lr sample_lr_edges = Ok out
    /\ size out = [1; 3; 64; 64].
Proof.
  destruct (@scale_is_unused unit zero_draw zero_kernel range_arith 2 8 8 true true tt)
    as (_ & _ & _ & _ & eg & sg & g1 & g2 & _ & _ & H).
  destruct (H sample_lr sample_lr_edges 1 16 16 eq_refl eq_refl
              ltac:(lia) ltac:(lia)
              (ex_intro _ 4 eq_refl) (ex_intro _ 4 eq_refl))
    as (a & out & _ & _ & E & S).
  exists (mkEdgeSRModel eg sg), out. split; [exact E | exact S].
Defined.

Lemma init_weights_zeroes_biases_example :
  exists m' g',
    init_weights zero_draw sample_tree "xavier" (2 / 100) tt = Ok (m', g')
    /\ length (modules m') = 3.
Proof.
  destruct (@init_weights_zeroes_biases unit zero_draw sample_tree "xavier"
              (2 / 100) tt) as (m' & g' & E & H).
  { simpl. tauto. }
  { constructor; [|constructor]. split; [discriminate|].
    intros _. simpl. split; [lra | lia]. }
  exists m', g'. split; [exact E|].
  apply Forall2_length in H. now rewrite <- H.
Defined.

Lemma init_weights_unknown_policy_keeps_weights_example :
  exists m' g',
    init_weights zero_draw sample_tree "bogus" (2 / 100) tt = Ok (m', g')
    /\ length (modules m') = 3.
Proof.
  destruct (@init_weights_unknown_policy_keeps_weights unit zero_draw sample_tree
              "bogus" (2 / 100) tt) as (m' & g' & E & H).
  { intros [H|[H|[H|[H|[]]]]]; discriminate H. }
  exists m', g'. split; [exact E|].
  apply Forall2_length in H. now rewrite <- H.
Defined.

Lemma init_weights_unknown_policy_zeroes_biases_example :
  exists m' g',
    init_weights zero_draw sample_tree "bogus" (2 / 100) tt = Ok (m', g')
    /\ length (modules m') = 3.
Proof.
  destruct (@init_weights_unknown_policy_zeroes_biases unit zero_draw sample_tree
              "bogus" (2 / 100) tt) as (m' & g' & E & H).
  { intros [H|[H|[H|[H|[]]]]]; discriminate H. }
  exists m', g'. split; [exact E|].
  apply Forall2_length in H. now rewrite <- H.
Defined.

Lemma constructed_biases_are_zero_example :
  exists m g',
    SRGenerator_init zero_draw 4 0 true tt = Ok (m, g')
    /\ Forall (fun c => forall b, Conv_bias c = Some b ->
                                  forall idx, data b idx = Finite 0) (convs m).
Proof.
  destruct (@constructed_biases_are_zero unit zero_draw 4 0 true tt)
    as ((m & g' & E & H) & _).
  exists m, g'. split; [exact E | exact H].
Defined.

Lemma init_weights_unknown_policy_draws_nothing_example :
  exists m', init_weights zero_draw sample_tree "bogus" (2 / 100) tt = Ok (m', tt).
Proof.
  apply (@init_weights_unknown_policy_draws_nothing unit zero_draw sample_tree
           "bogus" (2 / 100) tt).
  intros [H|[H|[H|[H|[]]]]]; discriminate H.
Defined.

Lemma init_weights_draws_weights_example :
  exists m' g',
    init_weights zero_draw sample_tree "orthogonal" (2 / 100) tt = Ok (m', g')
    /\ length (modules m') = 3.
Proof.
  destruct (@init_weights_draws_weights unit zero_draw sample_tree "orthogonal"
              (2 / 100) tt) as (m' & g' & E & H).
  { simpl. tauto. }
  { intros _. lra. }
  { constructor; [|constructor]. unfold proper_conv. simpl. lia. }
  exists m', g'. split; [exact E|].
  apply Forall2_length in H. now rewrite <- H.
Defined.

Lemma EdgeGenerator_forward_range_example :
  exists m out,
    forward zero_kernel range_arith m sample_input = Ok out
    /\ in_unit_interval (data out origin).
Proof.
  destruct (@EdgeGenerator_forward_range unit zero_draw zero_kernel range_arith
              4 0 true false tt)
    as (e & mi & d & g' & E & H).
  cbn in E. injection E as <- <- <- _.
  destruct (@forward_returns zero_kernel range_arith
              (EdgeGenerator_arch 0) sample_input [1; 1; 8; 8]) as (o & _ & _);
    [vm_compute; reflexivity|].
  match type of H with
  | forall x out, forward _ _ ?m x = Ok out -> _ =>
      destruct (@forward_returns zero_kernel range_arith m sample_input
                  [1; 1; 8; 8]) as (out & Eo & _);
        [vm_compute; reflexivity|];
      destruct (H sample_input out Eo) as (raw & Er & _ & _ & Hr);
      exists m, out; split; [exact Eo|]
  end.
  apply Hr. cbn in Er. injection Er as <-. discriminate.
Defined.

Lemma generators_round_size_down_example :
  exists m out,
    forward zero_kernel range_arith m sample_input_13 = Ok out
    /\ size out = [1; 3; 12; 12].
Proof.
  destruct (@generators_round_size_down unit zero_draw zero_kernel range_arith 4 8 true true tt)
    as ((m & g' & _ & H) & _).
  destruct (H sample_input_13 1 13 14 eq_refl ltac:(lia) ltac:(lia))
    as (out & Eo & So & _).
  exists m, out. split; [exact Eo | exact So].
Defined.

Lemma EdgeSRModel_forward_domain_example :
  exists self out,
    EdgeSRModel_forward zero_kernel range_arith self sample_lr_3 sample_lr_edges_3 = Ok out.
Proof.
  destruct (@EdgeSRModel_forward_domain unit zero_draw zero_kernel range_arith true tt)
    as (self & g' & _ & H).
  destruct (proj2 (H sample_lr_3 sample_lr_edges_3 1 3 3 eq_refl eq_refl)
              (conj (le_n 3) (le_n 3))) as (out & Eo).
  now exists self, out.
Defined.

Lemma EdgeSRModel_forward_rejects_mismatch_example :
  EdgeSRModel_forward zero_kernel range_arith
    (mkEdgeSRModel (Sequential []) (Sequential [])) sample_lr sample_small_edges
  = Raise RuntimeError.
Proof.
  apply (@EdgeSRModel_forward_rejects_mismatch zero_kernel range_arith
           (mkEdgeSRModel (Sequential []) (Sequential []))
           sample_lr sample_small_edges 1 3 16 16 1 1 8 8 eq_refl eq_refl).
  right. left. lia.
Defined.

Lemma EdgeSRModel_forward_rejects_channels_example :
  exists self e,
    EdgeSRModel_forward zero_kernel range_arith self sample_gray sample_lr_edges = Raise e.
Proof.
  destruct (@EdgeSRModel_forward_rejects_channels unit zero_draw zero_kernel range_arith true tt)
    as (self & g' & _ & H).
  destruct (H sample_gray sample_lr_edges 1 1 16 16 1 1 16 16 eq_refl eq_refl)
    as (e & He).
  { left. lia. }
  now exists self, e.
Defined.

Lemma ResnetBlock_forward_domain_example :
  exists block out,
    forward zero_kernel range_arith block sample_features = Ok out
    /\ size out = [1; 2; 3; 3].
Proof.
  destruct (@ResnetBlock_forward_domain unit zero_draw zero_kernel range_arith
              2 1 false tt ltac:(lia))
    as (block & g' & _ & H).
  destruct (H sample_features 1 3 3 (le_n 1) eq_refl) as (Hdom & Hsize).
  destruct (proj2 Hdom ltac:(lia)) as (out & Eo).
  exists block, out. split; [exact Eo | exact (Hsize out Eo)].
Defined.

Lemma ResnetBlock_bias_iff_no_spectral_norm_example :
  exists c1 c2 g',
    ResnetBlock_init zero_draw 2 1 true tt
    = Ok (ResnetBlock (conv_block_of 2 1 c1 c2), g')
    /\ Conv_bias c1 = None /\ Conv_bias c2 = None.
Proof.
  destruct (@ResnetBlock_bias_iff_no_spectral_norm unit zero_draw 2 1 true tt
              (fun _ => le_S 1 1 (le_n 1)))
    as (c1 & c2 & g' & E & B1 & B2 & _).
  exists c1, c2, g'. split; [exact E|]. split.
  - destruct (Conv_bias c1); [|reflexivity].
    assert (F : true = false) by (apply B1; discriminate). discriminate F.
  - destruct (Conv_bias c2); [|reflexivity].
    assert (F : true = false) by (apply B2; discriminate). discriminate F.
Defined.

Lemma init_weights_preserves_forward_sizes_example :
  exists m' g',
    init_weights zero_draw sample_tree "normal" (2 / 100) tt = Ok (m', g')
    /\ arch m' = arch sample_tree.
Proof.
  destruct (@init_weights_preserves_forward_sizes unit zero_draw zero_kernel
              range_arith sample_tree "normal" (2 / 100) tt)
    as (m' & g' & E & Ha & _).
  { constructor; [|constructor]. split; [intros _; lra | discriminate]. }
  now exists m', g'.
Defined.

(* ================================================================== *)
(** ** Overflow: a finite input with a NaN output *)

Lemma huge_gt_1 : (1 < huge)%R.
Proof. apply Rlt_pow_R1; [lra | lia]. Qed.

Lemma overflow_finite (r : R) :
  (- (2 * huge) < r < 2 * huge)%R -> overflow r = Finite r.
Proof.
  intros Hr. unfold overflow.
  destruct (Rle_dec (2 * huge) r); [lra|].
  destruct (Rle_dec r (- (2 * huge))); [lra | reflexivity].
Qed.

Lemma overflow_PosInf (r : R) : (2 * huge <= r)%R -> overflow r = PosInf.
Proof.
  intros Hr. unfold overflow.
  destruct (Rle_dec (2 * huge) r); [reflexivity | lra].
Qed.

(** 4 * 7 * 7 products of 2^127 and 0.02 add up to more than 2^128. *)
Lemma uniform_conv_overflows (c : Conv) :
  in_channels c = 4 -> kernel_size c = 7 ->
  weight_data c origin = Finite (2 / 100) ->
  bias_data c = Some (fun _ => Finite 0) ->
  uniform_conv c (Finite huge) = PosInf.
Proof.
  intros Hi Hk Hw Hb. unfold uniform_conv. rewrite Hi, Hk, Hw, Hb.
  pose proof huge_gt_1 as Hh.
  change (fmul range_arith (Finite huge) (Finite (2 / 100)))
    with (overflow (huge * (2 / 100))).
  rewrite overflow_finite by lra.
  change (4 * 7 * 7) with 196.
  change (fmul range_arith (Finite (INR 196)) (Finite (huge * (2 / 100))))
    with (overflow (INR 196 * (huge * (2 / 100)))).
  rewrite overflow_PosInf; [reflexivity|].
  rewrite INR_IZR_INZ. change (Z.of_nat 196) with 196%Z. lra.
Qed.

Lemma uniform_kernel_NaN (l : Layer) (x : Tensor) (idx : list nat) :
  data x origin = NaN -> uniform_kernel l x idx = NaN.
Proof.
  intros H. destruct l; unfold uniform_kernel, uniform_conv; rewrite H;
    reflexivity.
Qed.

(** On the uniform engine a tensor full of NaN stays one through every
    module. *)
Lemma forward_uniform_NaN (ar : Arith) (m : nnModule) :
  forall x y,
    (forall idx, data x idx = NaN) ->
    forward uniform_kernel ar m x = Ok y ->
    forall idx, data y idx = NaN.
Proof.
  induction m as [l|ms IH|cb IH|e mi d IHe IHmi IHd|e mi d IHe IHmi IHd]
    using nnModule_tree_ind; intros x y Hx H idx.
  - simpl in H. apply rbind_Ok in H as (s & _ & H). injection H as <-.
    simpl. apply uniform_kernel_NaN, Hx.
  - revert x Hx H. induction IH as [|c ms Hc _ IHms]; intros x Hx H; simpl in H.
    + injection H as <-. apply Hx.
    + apply rbind_Ok in H as (x1 & E1 & H).
      apply (IHms x1); [|exact H]. intros i. apply (Hc x x1 Hx E1).
  - simpl in H. apply rbind_Ok in H as (fx & _ & H). unfold tensor_add in H.
    destruct (sizes_eqb (size x) (size fx)).
    + injection H as <-. simpl. now rewrite Hx.
    + apply rbind_Ok in H as (r & _ & H). injection H as <-.
      simpl. now rewrite Hx.
  - simpl in H. apply rbind_Ok in H as (x1 & E1 & H).
    apply rbind_Ok in H as (x2 & E2 & H). apply rbind_Ok in H as (x3 & E3 & H).
    injection H as <-. simpl.
    now rewrite (IHd x2 x3 (IHmi x1 x2 (IHe x x1 Hx E1) E2) E3).
  - simpl in H. apply rbind_Ok in H as (x1 & E1 & H).
    apply rbind_Ok in H as (x2 & E2 & H). apply rbind_Ok in H as (x3 & E3 & H).
    injection H as <-. simpl.
    now rewrite (IHd x2 x3 (IHmi x1 x2 (IHe x x1 Hx E1) E2) E3).
Qed.

Lemma normal__uniform (t : Tensor) :
  normal_ uniform_draw t 0 (2 / 100)
  = fun g => Ok (mkTensor (size t) (fun _ => Finite (2 / 100)), g).
Proof.
  unfold normal_. destruct (Rlt_dec (2 / 100) 0); [lra | reflexivity].
Qed.

(** The generator [SRGenerator()] whose weights are all 0.02, on the
    input full of 2^127: the first convolution overflows to +inf, the
    instance normalisation after it turns that into NaN, NaN reaches the
    decoder output, and (tanh(NaN) + 1) / 2 is NaN. *)
Lemma SRGenerator_forward_overflow :
  exists m out,
    SRGenerator_init uniform_draw 4 8 true tt = Ok (m, tt)
    /\ (forall idx, data sample_huge idx = Finite huge)
    /\ forward uniform_kernel range_arith m sample_huge = Ok out
    /\ size out = [1; 3; 16; 16]
    /\ (forall idx, data out idx = NaN)
    /\ ~ in_unit_interval (data out origin).
Proof.
  pose (c1 := mkConv 4 64 7 1 0 1 (fun _ => Finite (2 / 100))
                (Some (fun _ => Finite 0)) None).
  assert (E : exists rest mi d,
             SRGenerator_init uniform_draw 4 8 true tt
             = Ok (SRGenerator
                     (Sequential
                        (Builtin (ReflectionPad2d 3) :: Builtin (Conv2d c1)
                         :: Builtin (InstanceNorm2d 64) :: rest)) mi d, tt)).
  { unfold SRGenerator_init, init_weights_default, init_weights.
    change (Z.to_nat 8) with 8.
    cbn -[normal_].
    repeat (rewrite normal__uniform; cbn -[normal_]).
    eexists _, _, _. reflexivity. }
  destruct E as (rest & mi & d & E).
  set (m := SRGenerator
              (Sequential
                 (Builtin (ReflectionPad2d 3) :: Builtin (Conv2d c1)
                  :: Builtin (InstanceNorm2d 64) :: rest)) mi d) in *.
  assert (Ha : arch m = SRGenerator_arch 8).
  { destruct (@SRGenerator_init_spec unit uniform_draw 4 8 true tt)
      as (m' & g' & E' & Ha).
    rewrite E in E'. now injection E' as <- _. }
  destruct (@forward_returns uniform_kernel range_arith m sample_huge
              [1; 3; 16; 16]) as (out & Eo & So).
  { rewrite <- arch_out_size, Ha. vm_compute. reflexivity. }
  exists m, out. split; [exact E|]. split; [reflexivity|].
  split; [exact Eo|]. split; [exact So|].
  assert (Hnan : forall idx, data out idx = NaN).
  { set (t1 := mkTensor [1; 4; 22; 22]
                 (uniform_kernel (ReflectionPad2d 3) sample_huge)).
    set (t2 := mkTensor [1; 64; 16; 16] (uniform_kernel (Conv2d c1) t1)).
    set (t3 := mkTensor [1; 64; 16; 16] (uniform_kernel (InstanceNorm2d 64) t2)).
    change (forward uniform_kernel range_arith
              (SRGenerator (Sequential rest) mi d) t3 = Ok out) in Eo.
    apply (@forward_uniform_NaN range_arith
             (SRGenerator (Sequential rest) mi d) t3 out); [|exact Eo].
    intros idx.
    change (match uniform_conv c1 (Finite huge) with
            | Finite _ => Finite 0
            | _ => NaN
            end = NaN).
    now rewrite uniform_conv_overflows. }
  split; [exact Hnan|].
  intros (v & Hv & _). rewrite Hnan in Hv. discriminate Hv.
Qed.

(** With the policy 'normal' and the gain -0.02 the first weight is
    rejected, before any bias is set. *)
Lemma init_weights_negative_gain :
  init_weights zero_draw sample_tree "normal" (- (2 / 100)) tt
  = Raise RuntimeError.
Proof.
  unfold init_weights, sample_tree. cbn -[normal_].
  unfold normal_. destruct (Rlt_dec (- (2 / 100)) 0); [reflexivity | lra].
Qed.
